(** * VGA terminal scan-out engine ([glasgow.applet.vga_terminal])

    A shallow embedding of [VGATerminalSubtarget.__init__]: the registers of
    the [pix] clock domain become the fields of a record, one clock edge of
    that domain becomes the function [step], and the combinational
    assignments become functions of the current state.  Every Migen signal
    is an unsigned integer of a fixed width; it is modelled as a [Z] and the
    truncation that an assignment performs is written out with [trunc]. *)

From Stdlib Require Import ZArith List Bool Lia.
Import ListNotations.
Local Open Scope Z_scope.

(** ** The fragment of Migen the applet relies on *)

Module Migen.

(** [log2_int(n, need_pow2=False)]: the least [r] with [n <= 2^r]. *)
Definition log2_int (n : Z) : Z := Z.log2_up n.

(** [bits_for(n)] for an unsigned bound [n >= 0]. *)
Definition bits_for (n : Z) : Z :=
  if 0 <? n then log2_int (n + 1) else log2_int (- n) + 1.

(** Assigning a value to a signal of [w] bits keeps its low [w] bits. *)
Definition trunc (w x : Z) : Z := x mod 2 ^ w.

(** [Cat(b0, b1, ...)] of one-bit values: [b0] is the least significant. *)
Fixpoint Cat (bits : list bool) : Z :=
  match bits with
  | [] => 0
  | b :: rest => Z.b2z b + 2 * Cat rest
  end.

(** [range(n)] as a list of integers. *)
Definition range (n : Z) : list Z := map Z.of_nat (seq 0 (Z.to_nat n)).

(** A synchronous read port of a [Memory(width, depth, init)]: the word at
    [adr], truncated to the memory width.  Words past the end of [init]
    are taken as zero, and so is a read outside the memory, which the
    hardware leaves unspecified. *)
Definition mem_read (width depth : Z) (init : list Z) (adr : Z) : Z :=
  if (0 <=? adr) && (adr <? depth)
  then trunc width (nth (Z.to_nat adr) init 0)
  else 0.

End Migen.
Import Migen.

(** ** Configuration and construction *)

Record Config := mkConfig {
  h_active      : Z;
  v_active      : Z;
  font_data     : list Z;
  font_width    : Z;
  font_height   : Z;
  blink_cyc     : Z;
  char_mem_init : list Z;
  attr_mem_init : list Z
}.

(** What the constructor can raise: Python's integer division by zero, and
    the assertion [min < max] of [Signal(max=...)]. *)
Inductive Error := ZeroDivisionError | AssertionError.

(** [char_mem.depth], with Python's floor division. *)
Definition char_depth (c : Config) : Z :=
  (h_active c / font_width c) * (v_active c / font_height c).

Definition font_depth (c : Config) : Z := font_height c * 256.

(** Widths of the counters, as [Signal(max=m)] computes them. *)
Definition char_bits  (c : Config) : Z := bits_for (char_depth c - 1).
Definition font_h_bits (c : Config) : Z := bits_for (font_width c - 1).
Definition font_v_bits (c : Config) : Z := bits_for (font_height c - 1).
Definition blink_bits (c : Config) : Z := bits_for (blink_cyc c - 1).
Definition font_adr_bits (c : Config) : Z := bits_for (font_depth c - 1).

(** The registers of the [pix] domain.  The three [*_dat_r] fields are the
    registered outputs of the synchronous read ports. *)
Record State := mkState {
  char_ctr   : Z;
  char_l_ctr : Z;
  font_h_ctr : Z;
  font_v_ctr : Z;
  font_shreg : Z;
  attr_reg   : Z;
  undrl_reg  : bool;
  blink_ctr  : Z;
  blink_reg  : bool;
  char_dat_r : Z;
  attr_dat_r : Z;
  font_dat_r : Z
}.

(** Every signal resets to zero. *)
Definition reset_state : State :=
  mkState 0 0 0 0 0 0 false 0 false 0 0 0.

(** [Signal(max=m)] asserts [0 < m - 1]. *)
Definition signal_max_ok (m : Z) : bool := 0 <? m - 1.

(** The constructor, in the order in which the source evaluates: the depth
    of the character memory first, then the signals.  Nothing else is
    checked; on success the circuit exists and sits in its reset state. *)
Definition construct (c : Config) : Error + State :=
  if (font_width c =? 0) || (font_height c =? 0) then inl ZeroDivisionError
  else if negb (signal_max_ok (char_depth c)) then inl AssertionError
  else if negb (signal_max_ok (font_depth c)) then inl AssertionError
  else if negb (signal_max_ok (font_width c)) then inl AssertionError
  else if negb (signal_max_ok (font_height c)) then inl AssertionError
  else if negb (signal_max_ok (blink_cyc c)) then inl AssertionError
  else inr reset_state.

(** ** One clock edge *)

(** The four signals of the video timing generator that the engine reads. *)
Record Inputs := mkInputs {
  v_stb : bool;
  v_en  : bool;
  h_stb : bool;
  h_en  : bool
}.

Section Engine.

Variable c : Config.

(** Combinational signals. *)
Definition char_data (s : State) : Z := char_dat_r s.
Definition attr_data (s : State) : Z := attr_dat_r s.

Definition font_adr (s : State) : Z :=
  trunc (font_adr_bits c) (char_data s * font_height c + font_v_ctr s).

Definition font_line (s : State) : Z :=
  Cat (rev (map (Z.testbit (font_dat_r s)) (range (font_width c)))).

(** The scan counters: [If(v_stb) ... Elif(h_stb & v_en) ... Elif(v_en & h_en)]. *)
Definition next_char_ctr (s : State) (i : Inputs) : Z :=
  if v_stb i then 0
  else if h_stb i && v_en i then
    if font_v_ctr s =? font_height c - 1 then char_ctr s else char_l_ctr s
  else if v_en i && h_en i then
    if font_h_ctr s =? 0 then trunc (char_bits c) (char_ctr s + 1)
    else char_ctr s
  else char_ctr s.

Definition next_char_l_ctr (s : State) (i : Inputs) : Z :=
  if v_stb i then 0
  else if h_stb i && v_en i then
    if font_v_ctr s =? font_height c - 1 then char_ctr s else char_l_ctr s
  else char_l_ctr s.

Definition next_font_v_ctr (s : State) (i : Inputs) : Z :=
  if v_stb i then 0
  else if h_stb i && v_en i then
    if font_v_ctr s =? font_height c - 1 then 0
    else trunc (font_v_bits c) (font_v_ctr s + 1)
  else font_v_ctr s.

Definition next_font_h_ctr (s : State) (i : Inputs) : Z :=
  if v_stb i then 0
  else if h_stb i && v_en i then 0
  else if v_en i && h_en i then
    if font_h_ctr s =? font_width c - 1 then 0
    else trunc (font_h_bits c) (font_h_ctr s + 1)
  else font_h_ctr s.

(** The render latch: [If(~h_en | (font_h_ctr == font_width - 1))]. *)
Definition latch_cond (s : State) (i : Inputs) : bool :=
  negb (h_en i) || (font_h_ctr s =? font_width c - 1).

Definition next_font_shreg (s : State) (i : Inputs) : Z :=
  if latch_cond s i then font_line s else Z.shiftr (font_shreg s) 1.

Definition next_attr_reg (s : State) (i : Inputs) : Z :=
  if latch_cond s i then attr_data s else attr_reg s.

Definition next_undrl_reg (s : State) (i : Inputs) : bool :=
  if latch_cond s i then font_v_ctr s =? font_height c - 1 else undrl_reg s.

(** The blink oscillator. *)
Definition next_blink_ctr (s : State) : Z :=
  if blink_ctr s =? blink_cyc c - 1 then 0
  else trunc (blink_bits c) (blink_ctr s + 1).

Definition next_blink_reg (s : State) : bool :=
  if blink_ctr s =? blink_cyc c - 1 then negb (blink_reg s) else blink_reg s.

(** All registers are updated from the values before the edge. *)
Definition step (s : State) (i : Inputs) : State :=
  {| char_ctr   := next_char_ctr s i;
     char_l_ctr := next_char_l_ctr s i;
     font_h_ctr := next_font_h_ctr s i;
     font_v_ctr := next_font_v_ctr s i;
     font_shreg := next_font_shreg s i;
     attr_reg   := next_attr_reg s i;
     undrl_reg  := next_undrl_reg s i;
     blink_ctr  := next_blink_ctr s;
     blink_reg  := next_blink_reg s;
     char_dat_r := mem_read 8 (char_depth c) (char_mem_init c) (char_ctr s);
     attr_dat_r := mem_read 5 (char_depth c) (attr_mem_init c) (char_ctr s);
     font_dat_r := mem_read (font_width c) (font_depth c) (font_data c)
                            (font_adr s) |}.

Definition run (s : State) (ins : list Inputs) : State :=
  fold_left step ins s.

(** The address on the character and attribute read ports at each edge. *)
Fixpoint addr_trace (s : State) (ins : list Inputs) : list Z :=
  match ins with
  | [] => []
  | i :: rest => char_ctr s :: addr_trace (step s i) rest
  end.

(** A property of every state met while the inputs are consumed. *)
Fixpoint always (P : State -> Prop) (s : State) (ins : list Inputs) : Prop :=
  match ins with
  | [] => P s
  | i :: rest => P s /\ always P (step s i) rest
  end.

(** States the circuit can be in after construction. *)
Definition reachable (s : State) : Prop :=
  exists s0 ins, construct c = inr s0 /\ s = run s0 ins.

End Engine.

(** ** Pixel compositor *)

Record Pixel := mkPixel { r : bool; g : bool; b : bool }.

Definition pix_fg (s : State) : bool :=
  (Z.testbit (font_shreg s) 0 || (undrl_reg s && Z.testbit (attr_reg s) 3))
  && (negb (Z.testbit (attr_reg s) 4) || blink_reg s).

Definition pix (s : State) : Pixel :=
  {| r := pix_fg s && Z.testbit (attr_reg s) 0;
     g := pix_fg s && Z.testbit (attr_reg s) 1;
     b := pix_fg s && Z.testbit (attr_reg s) 2 |}.

(** ** The timing of a normal frame *)

(** Modelled from the spec: the video timing generator ([vga_output]) is an
    external collaborator whose code is not part of this development.  Per
    the input contract it drives, on every tick, a vertical sync, a vertical
    enable, a horizontal sync and a horizontal enable.  A normal frame opens
    with the vertical sync pulse; every scanline has [h_active] ticks of
    horizontal enable, a front porch, one tick of horizontal sync and a back
    porch; the [v_active] scanlines with vertical enable are preceded and
    followed by blanked scanlines. *)
Record Timing := mkTiming {
  h_front : nat;
  h_back  : nat;
  v_back  : nat;
  v_front : nat
}.

Definition vsync_in : Inputs := mkInputs true false false false.
Definition pixel_in (ve : bool) : Inputs := mkInputs false ve false true.
Definition hblank_in (ve : bool) : Inputs := mkInputs false ve false false.
Definition hsync_in (ve : bool) : Inputs := mkInputs false ve true false.

Section Frame.

Variable c : Config.
Variable tm : Timing.

Definition pixels (ve : bool) : list Inputs :=
  repeat (pixel_in ve) (Z.to_nat (h_active c)).

(** A scanline up to, but not including, its horizontal sync. *)
Definition scanline_head (ve : bool) : list Inputs :=
  pixels ve ++ repeat (hblank_in ve) (h_front tm).

Definition scanline_tail (ve : bool) : list Inputs :=
  hsync_in ve :: repeat (hblank_in ve) (h_back tm).

Definition scanline (ve : bool) : list Inputs :=
  scanline_head ve ++ scanline_tail ve.

Definition scanlines (ve : bool) (n : nat) : list Inputs :=
  concat (repeat (scanline ve) n).

(** The scanlines of one character row. *)
Definition row_group : list Inputs :=
  scanlines true (Z.to_nat (font_height c)).

(** The same ticks, cut just before the last horizontal sync. *)
Definition row_group_head : list Inputs :=
  scanlines true (Z.to_nat (font_height c) - 1) ++ scanline_head true.

(** Modelled from the spec: one frame of timing inputs, from its vertical
    sync to the tick before the next one. *)
Definition normal_frame : list Inputs :=
  vsync_in :: scanlines false (v_back tm)
           ++ scanlines true (Z.to_nat (v_active c))
           ++ scanlines false (v_front tm).

End Frame.

(** Modelled from the spec: a configuration is well formed when the active
    area is a whole, positive number of glyphs in each direction. *)
Definition well_formed (c : Config) : Prop :=
  0 < h_active c /\ 0 < v_active c /\
  h_active c mod font_width c = 0 /\ v_active c mod font_height c = 0.

(** Cells in a character row, and the modulus of the cell counters. *)
Definition cells_per_row (c : Config) : Z := h_active c / font_width c.
Definition char_mod (c : Config) : Z := 2 ^ char_bits c.

(** ** Vocabulary of the statements *)

(** The counters stay inside the ranges their declarations name. *)
Definition counters_bounded (c : Config) (s : State) : Prop :=
  0 <= font_h_ctr s < font_width c /\
  0 <= font_v_ctr s < font_height c /\
  0 <= blink_ctr s < blink_cyc c.

(** [y] holds the low [w] bits of [x] in the opposite order. *)
Definition bits_reversed (w x y : Z) : Prop :=
  forall n, 0 <= n < w -> Z.testbit y n = Z.testbit x (w - 1 - n).

(** [y] is [x] moved one position towards bit 0. *)
Definition shifted_down (x y : Z) : Prop :=
  forall n, 0 <= n -> Z.testbit y n = Z.testbit x (n + 1).

(** Successive addresses with immediate repetitions dropped. *)
Fixpoint dedup_adj (l : list Z) : list Z :=
  match l with
  | [] => []
  | x :: rest =>
      match rest with
      | [] => [x]
      | y :: _ => if x =? y then dedup_adj rest else x :: dedup_adj rest
      end
  end.

(** The attribute word, following the spec's words: three colour bits, then
    underline, then blink. *)
Record Attribute := mkAttribute {
  color_bit_0 : bool;
  color_bit_1 : bool;
  color_bit_2 : bool;
  underline   : bool;
  blink       : bool
}.

Definition decode_attr (a : Z) : Attribute :=
  {| color_bit_0 := Z.testbit a 0;
     color_bit_1 := Z.testbit a 1;
     color_bit_2 := Z.testbit a 2;
     underline   := Z.testbit a 3;
     blink       := Z.testbit a 4 |}.

Definition encode_attr (color : Z) (ul bl : bool) : Z :=
  color + 8 * Z.b2z ul + 16 * Z.b2z bl.

(** The compositor as the spec words it. *)
Definition spec_foreground_active (bit0 ul_active phase : bool) (a : Attribute) : bool :=
  (bit0 || (ul_active && underline a)) && (negb (blink a) || phase).

Definition spec_pixel (bit0 ul_active phase : bool) (a : Attribute) : Pixel :=
  let fg := spec_foreground_active bit0 ul_active phase a in
  {| r := fg && color_bit_0 a; g := fg && color_bit_1 a; b := fg && color_bit_2 a |}.

(** The four scan counters, read together. *)
Definition scan (s : State) : Z * Z * Z * Z :=
  (char_ctr s, char_l_ctr s, font_v_ctr s, font_h_ctr s).

(** Division rounded up. *)
Definition cdiv (a b : Z) : Z := (a + b - 1) / b.

(** Inputs on which none of the three scan transitions fires. *)
Definition idle (i : Inputs) : Prop :=
  v_stb i = false /\ h_stb i && v_en i = false /\ v_en i && h_en i = false.

(** Consecutive integers [a, a+1, ..., a+n-1]. *)
Definition zseq (a : Z) (n : nat) : list Z :=
  map (fun j => a + Z.of_nat j) (seq 0 n).

(** ** Sample configurations *)

(** Three cells per row, two rows; glyphs of 2 by 2 pixels. *)
Definition cfg_small : Config :=
  mkConfig 6 4 [] 2 2 3 [] [].

(** Four cells per row, two rows: the cell count is a power of two. *)
Definition cfg_pow2 : Config :=
  mkConfig 8 4 [] 2 2 3 [] [].

(** An active width that is not a multiple of the glyph width, and
    initial contents of the wrong sizes. *)
Definition cfg_ragged : Config :=
  mkConfig 7 4 [1; 2; 3] 2 2 3 [65] [7; 7; 7; 7; 7; 7; 7; 7; 7].

Definition tm_small : Timing := mkTiming 1 1 1 1.

(** The state [k] ticks into a normal frame, from the reset state. *)
Definition st_small (k : nat) : State :=
  run cfg_small reset_state (firstn k (normal_frame cfg_small tm_small)).

Definition st_pow2 (k : nat) : State :=
  run cfg_pow2 reset_state (firstn k (normal_frame cfg_pow2 tm_small)).

(** A state with every register loaded, as it may stand in mid-frame. *)
Definition st_busy : State := mkState 7 4 1 1 5 13 true 2 true 65 13 129.

(** ** What the read ports deliver *)

(** The character and the attribute stored for a cell address, and a row of
    a glyph, as the three read ports return them one edge after the address
    was presented. *)
Definition char_at (c : Config) (a : Z) : Z :=
  mem_read 8 (char_depth c) (char_mem_init c) a.

Definition attr_at (c : Config) (a : Z) : Z :=
  mem_read 5 (char_depth c) (attr_mem_init c) a.

Definition glyph_row (c : Config) (code v : Z) : Z :=
  mem_read (font_width c) (font_depth c) (font_data c)
           (code * font_height c + v).

(** [Cat(reversed([x[n] for n in range(w)]))], the wiring of [font_line]. *)
Definition bit_reverse (w x : Z) : Z :=
  Cat (rev (map (Z.testbit x) (range w))).

(** Every register holds an unsigned value of its declared width. *)
Definition registers_fit (c : Config) (s : State) : Prop :=
  0 <= char_ctr s < 2 ^ char_bits c /\
  0 <= char_l_ctr s < 2 ^ char_bits c /\
  0 <= font_h_ctr s < 2 ^ font_h_bits c /\
  0 <= font_v_ctr s < 2 ^ font_v_bits c /\
  0 <= blink_ctr s < 2 ^ blink_bits c /\
  0 <= font_shreg s < 2 ^ font_width c /\
  0 <= attr_reg s < 2 ^ 5 /\
  0 <= char_dat_r s < 2 ^ 8 /\
  0 <= attr_dat_r s < 2 ^ 5 /\
  0 <= font_dat_r s < 2 ^ font_width c.

(** The read pipeline and the render latch have caught up with the scan
    counters: they hold what the cell under [char_ctr] and the scanline
    under [font_v_ctr] call for. *)
Definition settled (c : Config) (s : State) : Prop :=
  char_dat_r s = char_at c (char_ctr s) /\
  attr_dat_r s = attr_at c (char_ctr s) /\
  font_dat_r s = glyph_row c (char_at c (char_ctr s)) (font_v_ctr s) /\
  font_shreg s = bit_reverse (font_width c) (font_dat_r s) /\
  attr_reg s = attr_at c (char_ctr s) /\
  undrl_reg s = (font_v_ctr s =? font_height c - 1).

(** Two configurations with the same screen and glyph dimensions; the
    memories and the blink period may differ. *)
Definition same_geometry (c1 c2 : Config) : Prop :=
  h_active c1 = h_active c2 /\ v_active c1 = v_active c2 /\
  font_width c1 = font_width c2 /\ font_height c1 = font_height c2.

(** The ticks of a frame up to pixel [x] of active scanline [y]. *)
Definition frame_upto (c : Config) (tm : Timing) (y x : nat) : list Inputs :=
  vsync_in :: scanlines c tm false (v_back tm)
           ++ scanlines c tm true y
           ++ repeat (pixel_in true) x.

(** The registers [t] active pixels into a scanline of glyph row [v] whose
    character row starts at cell [R]: the scan counters, the two stages of
    the read pipeline behind them, and the render latch. *)
Definition pipe_at (c : Config) (R v t : Z) (s : State) : Prop :=
  char_ctr s = (R + cdiv t (font_width c)) mod char_mod c /\
  font_v_ctr s = v /\
  font_h_ctr s = t mod font_width c /\
  char_dat_r s = char_at c ((R + cdiv (t - 1) (font_width c)) mod char_mod c) /\
  attr_dat_r s = attr_at c ((R + cdiv (t - 1) (font_width c)) mod char_mod c) /\
  font_dat_r s =
    glyph_row c (char_at c ((R + cdiv (t - 2) (font_width c)) mod char_mod c)) v /\
  font_shreg s =
    Z.shiftr (bit_reverse (font_width c)
                (glyph_row c (char_at c ((R + t / font_width c) mod char_mod c)) v))
             (t mod font_width c) /\
  attr_reg s = attr_at c ((R + t / font_width c) mod char_mod c) /\
  undrl_reg s = (v =? font_height c - 1).

(** Two cells per row, two rows; glyphs of 4 by 2 pixels, four of them
    defined; a back porch long enough for the read pipeline. *)
Definition cfg_demo : Config :=
  mkConfig 8 4 [0; 0; 10; 6; 15; 9; 1; 8] 4 2 3 [1; 2; 3; 0] [7; 13; 23; 1].

Definition tm_demo : Timing := mkTiming 1 3 1 1.

Definition st_demo (k : nat) : State :=
  run cfg_demo reset_state (firstn k (normal_frame cfg_demo tm_demo)).

(** ** Arithmetic of signal widths *)

Lemma bits_for_nonneg (n : Z) : 0 <= bits_for n.
Proof.
  unfold bits_for, log2_int.
  destruct (0 <? n).
  - apply Z.log2_up_nonneg.
  - pose proof (Z.log2_up_nonneg (- n)). lia.
Qed.

Lemma bits_for_bound (n : Z) : 0 <= n -> n < 2 ^ bits_for n.
Proof.
  intros Hn. unfold bits_for, log2_int.
  destruct (0 <? n) eqn:E.
  - apply Z.ltb_lt in E.
    pose proof (Z.log2_up_spec (n + 1) ltac:(lia)). lia.
  - apply Z.ltb_ge in E. assert (n = 0) by lia. subst n. reflexivity.
Qed.

Lemma trunc_range (w x : Z) : 0 <= w -> 0 <= trunc w x < 2 ^ w.
Proof.
  intros Hw. unfold trunc. apply Z.mod_pos_bound.
  apply Z.pow_pos_nonneg; lia.
Qed.

Lemma trunc_small (w x : Z) : 0 <= x < 2 ^ w -> trunc w x = x.
Proof. intros H. unfold trunc. apply Z.mod_small. exact H. Qed.

(** A counter declared with [max=m] holds every value below [m]. *)
Lemma trunc_below_max (m x : Z) : 0 <= x < m -> trunc (bits_for (m - 1)) x = x.
Proof.
  intros H. apply trunc_small.
  pose proof (bits_for_bound (m - 1) ltac:(lia)). lia.
Qed.

Lemma char_mod_pos (c : Config) : 0 < char_mod c.
Proof.
  unfold char_mod, char_bits. apply Z.pow_pos_nonneg; [lia | apply bits_for_nonneg].
Qed.

(** ** What a successful construction tells *)

Lemma construct_inv (c : Config) (s0 : State) :
  construct c = inr s0 ->
  s0 = reset_state /\ 2 <= font_width c /\ 2 <= font_height c /\
  2 <= blink_cyc c /\ 2 <= char_depth c.
Proof.
  unfold construct, signal_max_ok.
  destruct ((font_width c =? 0) || (font_height c =? 0)); [discriminate |].
  destruct (0 <? char_depth c - 1) eqn:E1; simpl; [| discriminate].
  destruct (0 <? font_depth c - 1) eqn:E2; simpl; [| discriminate].
  destruct (0 <? font_width c - 1) eqn:E3; simpl; [| discriminate].
  destruct (0 <? font_height c - 1) eqn:E4; simpl; [| discriminate].
  destruct (0 <? blink_cyc c - 1) eqn:E5; simpl; [| discriminate].
  intros H. inversion H. subst s0.
  apply Z.ltb_lt in E1, E3, E4, E5. repeat split; lia.
Qed.

Lemma char_mod_ge_depth (c : Config) : 1 <= char_depth c -> char_depth c <= char_mod c.
Proof.
  intros H. unfold char_mod, char_bits.
  pose proof (bits_for_bound (char_depth c - 1) ltac:(lia)). lia.
Qed.

(** ** Running the circuit *)

Section RunLemmas.

Variable c : Config.

Lemma run_app (s : State) (a b : list Inputs) :
  run c s (a ++ b) = run c (run c s a) b.
Proof. unfold run. apply fold_left_app. Qed.

Lemma run_cons (s : State) (i : Inputs) (l : list Inputs) :
  run c s (i :: l) = run c (step c s i) l.
Proof. reflexivity. Qed.

Lemma run_snoc (s : State) (i : Inputs) (l : list Inputs) :
  run c s (l ++ [i]) = step c (run c s l) i.
Proof. rewrite run_app. reflexivity. Qed.

Lemma repeat_snoc {A : Type} (x : A) (n : nat) :
  repeat x (S n) = repeat x n ++ [x].
Proof. induction n as [| n IH]; simpl in *; [reflexivity | now rewrite <- IH]. Qed.

Lemma always_here (P : State -> Prop) (s : State) (ins : list Inputs) :
  always c P s ins -> P s.
Proof. destruct ins; simpl; tauto. Qed.

Lemma always_end (P : State -> Prop) (s : State) (ins : list Inputs) :
  always c P s ins -> P (run c s ins).
Proof.
  revert s. induction ins as [| i l IH]; intros s H; simpl in *.
  - exact H.
  - apply IH. tauto.
Qed.

Lemma always_app (P : State -> Prop) (s : State) (a b : list Inputs) :
  always c P s (a ++ b) <-> always c P s a /\ always c P (run c s a) b.
Proof.
  revert s. induction a as [| i l IH]; intros s; simpl.
  - split; [intros H; split; [eapply always_here; eauto | exact H] | tauto].
  - rewrite IH. tauto.
Qed.

(** [always] is a statement about every prefix of the inputs. *)
Lemma always_firstn (P : State -> Prop) (s : State) (ins : list Inputs) :
  always c P s ins <-> forall k, P (run c s (firstn k ins)).
Proof.
  revert s. induction ins as [| i l IH]; intros s; simpl.
  - split.
    + intros H k. now rewrite firstn_nil.
    + intros H. apply (H 0%nat).
  - rewrite IH. split.
    + intros [H0 H] [| k]; simpl; [exact H0 | apply H].
    + intros H. split; [apply (H 0%nat) | intros k; apply (H (S k))].
Qed.

Lemma always_repeat (P : State -> Prop) (i : Inputs) (n : nat) (s : State) :
  (forall k, (k <= n)%nat -> P (run c s (repeat i k))) ->
  always c P s (repeat i n).
Proof.
  revert s. induction n as [| n IH]; intros s H; simpl.
  - apply (H 0%nat). lia.
  - split.
    + apply (H 0%nat). lia.
    + apply IH. intros k Hk. apply (H (S k)). lia.
Qed.

Lemma always_weaken (P Q : State -> Prop) (s : State) (ins : list Inputs) :
  (forall x, P x -> Q x) -> always c P s ins -> always c Q s ins.
Proof.
  intros HPQ. revert s. induction ins as [| i l IH]; intros s; simpl.
  - apply HPQ.
  - intros [H0 H]. split; [now apply HPQ | now apply IH].
Qed.

Lemma addr_trace_app (s : State) (a b : list Inputs) :
  addr_trace c s (a ++ b) = addr_trace c s a ++ addr_trace c (run c s a) b.
Proof.
  revert s. induction a as [| i l IH]; intros s; simpl.
  - reflexivity.
  - now rewrite IH.
Qed.

(** *** The counters never leave their declared ranges *)

Lemma step_counters_bounded (s : State) (i : Inputs) :
  counters_bounded c s -> counters_bounded c (step c s i).
Proof.
  unfold counters_bounded. intros (Hh & Hv & Hb). simpl.
  unfold next_font_h_ctr, next_font_v_ctr, next_blink_ctr,
    font_h_bits, font_v_bits, blink_bits.
  repeat split;
    repeat match goal with
           | |- context [if ?x then _ else _] => destruct x eqn:?
           end;
    rewrite ?Z.eqb_neq in *;
    rewrite ?trunc_below_max by lia; lia.
Qed.

Lemma step_char_range (s : State) (i : Inputs) :
  0 <= char_ctr s < char_mod c /\ 0 <= char_l_ctr s < char_mod c ->
  0 <= char_ctr (step c s i) < char_mod c /\
  0 <= char_l_ctr (step c s i) < char_mod c.
Proof.
  intros [Hc Hl]. simpl. unfold next_char_ctr, next_char_l_ctr.
  pose proof (trunc_range (char_bits c) (char_ctr s + 1)
                (bits_for_nonneg _)) as Ht.
  fold (char_mod c) in Ht.
  repeat match goal with
         | |- context [if ?x then _ else _] => destruct x
         end; pose proof (char_mod_pos c); lia.
Qed.

Lemma reachable_bounded (s : State) :
  reachable c s ->
  counters_bounded c s /\
  0 <= char_ctr s < char_mod c /\ 0 <= char_l_ctr s < char_mod c.
Proof.
  intros (s0 & ins & Hc & ->).
  apply construct_inv in Hc. destruct Hc as (-> & HW & HH & HP & HD).
  induction ins as [| i l IH] using rev_ind.
  - simpl. unfold counters_bounded. simpl.
    pose proof (char_mod_pos c). lia.
  - rewrite run_snoc. destruct IH as [IH1 IH2]. split.
    + now apply step_counters_bounded.
    + now apply step_char_range.
Qed.

Lemma reachable_step (s : State) (i : Inputs) :
  reachable c s -> reachable c (step c s i).
Proof.
  intros (s0 & ins & Hc & ->). exists s0, (ins ++ [i]).
  split; [exact Hc | now rewrite run_snoc].
Qed.

End RunLemmas.

(** ** Rounded-up division along a scanline *)

Lemma div_rem_unique (w q m : Z) : 0 <= m < w -> (w * q + m) / w = q.
Proof. intros H. symmetry. apply Z.div_unique with m; [left; exact H | reflexivity]. Qed.

Lemma cdiv_0 (w : Z) : 0 < w -> cdiv 0 w = 0.
Proof. intros H. unfold cdiv. apply Z.div_small. lia. Qed.

Lemma cdiv_succ_boundary (k w : Z) :
  0 < w -> k mod w = 0 -> cdiv (k + 1) w = cdiv k w + 1.
Proof.
  intros Hw Hm. unfold cdiv.
  pose proof (Z.div_mod k w ltac:(lia)) as E. rewrite Hm in E.
  replace (k + 1 + w - 1) with (w * (k / w + 1) + 0) by lia.
  replace (k + w - 1) with (w * (k / w) + (w - 1)) by lia.
  rewrite !div_rem_unique by lia. reflexivity.
Qed.

Lemma cdiv_succ_inside (k w : Z) :
  0 < w -> k mod w <> 0 -> cdiv (k + 1) w = cdiv k w.
Proof.
  intros Hw Hm. unfold cdiv.
  pose proof (Z.div_mod k w ltac:(lia)) as E.
  pose proof (Z.mod_pos_bound k w Hw) as B.
  replace (k + 1 + w - 1) with (w * (k / w + 1) + k mod w) by lia.
  replace (k + w - 1) with (w * (k / w + 1) + (k mod w - 1)) by lia.
  rewrite !div_rem_unique by lia. reflexivity.
Qed.

Lemma cdiv_mul (n w : Z) : 0 < w -> cdiv (n * w) w = n.
Proof.
  intros Hw. unfold cdiv.
  replace (n * w + w - 1) with (w * n + (w - 1)) by lia.
  apply div_rem_unique. lia.
Qed.

Lemma cdiv_first_span (k w : Z) : 0 < k <= w -> cdiv k w = 1.
Proof.
  intros H. unfold cdiv.
  replace (k + w - 1) with (w * 1 + (k - 1)) by lia.
  apply div_rem_unique. lia.
Qed.

Lemma mod_succ (k w : Z) :
  0 < w -> (k + 1) mod w = if k mod w =? w - 1 then 0 else k mod w + 1.
Proof.
  intros Hw.
  pose proof (Z.div_mod k w ltac:(lia)) as E.
  pose proof (Z.mod_pos_bound k w Hw) as B.
  destruct (k mod w =? w - 1) eqn:T.
  - apply Z.eqb_eq in T. symmetry.
    apply Z.mod_unique with (k / w + 1); [left; lia | lia].
  - apply Z.eqb_neq in T. symmetry.
    apply Z.mod_unique with (k / w); [left; lia | lia].
Qed.

(** ** The scan counters under the three kinds of tick *)

Section ScanLemmas.

Variable c : Config.

Lemma scan_step_vsync (s : State) (i : Inputs) :
  v_stb i = true -> scan (step c s i) = (0, 0, 0, 0).
Proof.
  intros H. unfold scan. simpl.
  unfold next_char_ctr, next_char_l_ctr, next_font_v_ctr, next_font_h_ctr.
  now rewrite H.
Qed.

Lemma scan_step_idle (s : State) (i : Inputs) :
  idle i -> scan (step c s i) = scan s.
Proof.
  intros (H1 & H2 & H3). unfold scan. simpl.
  unfold next_char_ctr, next_char_l_ctr, next_font_v_ctr, next_font_h_ctr.
  now rewrite H1, H2, H3.
Qed.

Lemma scan_run_idle (s : State) (ins : list Inputs) :
  Forall idle ins -> scan (run c s ins) = scan s.
Proof.
  revert s. induction ins as [| i l IH]; intros s H.
  - reflexivity.
  - inversion H; subst. rewrite run_cons, IH by assumption.
    now apply scan_step_idle.
Qed.

Lemma always_idle (P : Z * Z * Z * Z -> Prop) (s : State) (ins : list Inputs) :
  Forall idle ins -> P (scan s) -> always c (fun x => P (scan x)) s ins.
Proof.
  revert s. induction ins as [| i l IH]; intros s H HP; simpl.
  - exact HP.
  - inversion H; subst. split; [exact HP |].
    apply IH; [assumption |]. now rewrite scan_step_idle.
Qed.

Lemma scan_step_pixel (s : State) (cc l v h : Z) :
  scan s = (cc, l, v, h) -> 0 <= h < font_width c ->
  scan (step c s (pixel_in true)) =
  ((if h =? 0 then (cc + 1) mod char_mod c else cc), l, v,
   (if h =? font_width c - 1 then 0 else h + 1)).
Proof.
  unfold scan. intros E Hh. inversion E; subst. simpl.
  unfold next_char_ctr, next_char_l_ctr, next_font_v_ctr, next_font_h_ctr.
  simpl. unfold trunc, char_mod.
  destruct (font_h_ctr s =? font_width c - 1) eqn:T.
  - reflexivity.
  - apply Z.eqb_neq in T. unfold font_h_bits.
    fold (trunc (bits_for (font_width c - 1)) (font_h_ctr s + 1)).
    rewrite trunc_below_max by lia. reflexivity.
Qed.

Lemma scan_step_hsync (s : State) (cc l v h : Z) :
  scan s = (cc, l, v, h) -> 0 <= v < font_height c ->
  scan (step c s (hsync_in true)) =
  if v =? font_height c - 1 then (cc, cc, 0, 0) else (l, l, v + 1, 0).
Proof.
  unfold scan. intros E Hv. inversion E; subst. simpl.
  unfold next_char_ctr, next_char_l_ctr, next_font_v_ctr, next_font_h_ctr.
  simpl.
  destruct (font_v_ctr s =? font_height c - 1) eqn:T.
  - reflexivity.
  - apply Z.eqb_neq in T. unfold font_v_bits.
    rewrite trunc_below_max by lia. reflexivity.
Qed.

(** After [k] ticks of an active scanline the cell counter has advanced
    once for every glyph span entered. *)
Lemma scan_run_pixels (s : State) (cc l v : Z) (k : nat) :
  0 < font_width c -> scan s = (cc, l, v, 0) -> 0 <= cc < char_mod c ->
  scan (run c s (repeat (pixel_in true) k)) =
  ((cc + cdiv (Z.of_nat k) (font_width c)) mod char_mod c, l, v,
   Z.of_nat k mod font_width c).
Proof.
  intros HW E Hcc. induction k as [| k IH].
  - simpl. rewrite E, cdiv_0, Z.add_0_r, Z.mod_small, Z.mod_0_l by lia.
    reflexivity.
  - rewrite repeat_snoc, run_snoc.
    pose proof (Z.mod_pos_bound (Z.of_nat k) (font_width c) HW) as B.
    rewrite (scan_step_pixel _ _ _ _ _ IH B).
    replace (Z.of_nat (S k)) with (Z.of_nat k + 1) by lia.
    rewrite (mod_succ (Z.of_nat k) (font_width c)) by lia.
    destruct (Z.of_nat k mod font_width c =? 0) eqn:T.
    + apply Z.eqb_eq in T. rewrite cdiv_succ_boundary by lia.
      rewrite Z.add_mod_idemp_l by (pose proof (char_mod_pos c); lia).
      now rewrite Z.add_assoc.
    + apply Z.eqb_neq in T. rewrite cdiv_succ_inside by lia. reflexivity.
Qed.

End ScanLemmas.

(** ** One scanline of a normal frame *)

Lemma idle_hblank (ve : bool) : idle (hblank_in ve).
Proof. unfold idle; simpl. now rewrite andb_false_r. Qed.

Lemma idle_blanked_pixel : idle (pixel_in false).
Proof. unfold idle; simpl. tauto. Qed.

Lemma idle_blanked_hsync : idle (hsync_in false).
Proof. unfold idle; simpl. tauto. Qed.

Lemma Forall_repeat {A : Type} (P : A -> Prop) (x : A) (n : nat) :
  P x -> Forall P (repeat x n).
Proof. intros H. induction n; simpl; constructor; assumption. Qed.

Lemma scanlines_snoc (c : Config) (tm : Timing) (ve : bool) (n : nat) :
  scanlines c tm ve (S n) = scanlines c tm ve n ++ scanline c tm ve.
Proof.
  unfold scanlines. rewrite repeat_snoc, concat_app. simpl.
  now rewrite app_nil_r.
Qed.

Lemma idle_blanked_scanlines (c : Config) (tm : Timing) (n : nat) :
  Forall idle (scanlines c tm false n).
Proof.
  induction n as [| n IH].
  - constructor.
  - rewrite scanlines_snoc. apply Forall_app. split; [exact IH |].
    unfold scanline, scanline_head, scanline_tail, pixels.
    repeat (apply Forall_app; split); try apply Forall_repeat;
      try apply idle_hblank; try apply idle_blanked_pixel.
    constructor; [apply idle_blanked_hsync |].
    apply Forall_repeat, idle_hblank.
Qed.

Section Scanline.

Variable c : Config.
Variable tm : Timing.

Let W := font_width c.
Let H := font_height c.
Let n := cells_per_row c.
Let M := char_mod c.

Hypothesis HW : 0 < W.
Hypothesis Hn : 0 <= n.
Hypothesis Hact : h_active c = n * W.

Lemma cdiv_le_cells (k : nat) :
  (k <= Z.to_nat (h_active c))%nat -> 0 <= cdiv (Z.of_nat k) W <= n.
Proof.
  intros Hk. rewrite Hact in Hk. unfold cdiv. split.
  - apply Z.div_pos; lia.
  - rewrite <- (cdiv_mul n W HW). unfold cdiv.
    apply Z.div_le_mono; nia.
Qed.

Lemma scan_after_head (s : State) (R v : Z) :
  scan s = (R, R, v, 0) -> 0 <= R < M ->
  scan (run c s (scanline_head c tm true)) = ((R + n) mod M, R, v, 0).
Proof.
  intros E HR. unfold scanline_head, pixels. rewrite run_app.
  rewrite scan_run_idle by (apply Forall_repeat, idle_hblank).
  rewrite (scan_run_pixels c s R R v _ HW E HR).
  rewrite Z2Nat.id, Hact by nia.
  fold W. rewrite cdiv_mul, Z.mod_mul by lia. reflexivity.
Qed.

Lemma always_head (P : Z * Z * Z * Z -> Prop) (s : State) (R v : Z) :
  scan s = (R, R, v, 0) -> 0 <= R < M ->
  (forall j h, 0 <= j <= n -> 0 <= h < W -> P ((R + j) mod M, R, v, h)) ->
  always c (fun x => P (scan x)) s (scanline_head c tm true).
Proof.
  intros E HR HP. unfold scanline_head. apply always_app. split.
  - apply always_repeat. intros k Hk.
    rewrite (scan_run_pixels c s R R v _ HW E HR).
    apply HP; [now apply cdiv_le_cells | now apply Z.mod_pos_bound].
  - apply always_idle; [apply Forall_repeat, idle_hblank |].
    fold (scanline_head c tm true).
    pose proof (scan_after_head s R v E HR) as A.
    unfold scanline_head in A. rewrite run_app in A.
    rewrite scan_run_idle in A by (apply Forall_repeat, idle_hblank).
    rewrite A. apply HP; lia.
Qed.

Lemma scan_after_scanline (s : State) (R v : Z) :
  scan s = (R, R, v, 0) -> 0 <= R < M -> 0 <= v < H ->
  scan (run c s (scanline c tm true)) =
  if v =? H - 1 then ((R + n) mod M, (R + n) mod M, 0, 0)
  else (R, R, v + 1, 0).
Proof.
  intros E HR Hv. unfold scanline, scanline_tail.
  rewrite run_app, run_cons.
  rewrite scan_run_idle by (apply Forall_repeat, idle_hblank).
  apply scan_step_hsync with (h := 0); [now apply scan_after_head | exact Hv].
Qed.

Lemma always_scanline (P : Z * Z * Z * Z -> Prop) (s : State) (R v : Z) :
  scan s = (R, R, v, 0) -> 0 <= R < M -> 0 <= v < H ->
  (forall j h, 0 <= j <= n -> 0 <= h < W -> P ((R + j) mod M, R, v, h)) ->
  P (if v =? H - 1 then ((R + n) mod M, (R + n) mod M, 0, 0)
     else (R, R, v + 1, 0)) ->
  always c (fun x => P (scan x)) s (scanline c tm true).
Proof.
  intros E HR Hv HP HQ. unfold scanline. apply always_app. split.
  - now apply always_head with R v.
  - unfold scanline_tail. simpl. split.
    + rewrite (scan_after_head s R v E HR). apply HP; lia.
    + apply always_idle; [apply Forall_repeat, idle_hblank |].
      rewrite (scan_step_hsync c _ _ _ _ _ (scan_after_head s R v E HR) Hv).
      exact HQ.
Qed.

(** *** The scanlines of one character row *)

Lemma scan_after_lines (s : State) (R : Z) (j : nat) :
  scan s = (R, R, 0, 0) -> 0 <= R < M -> Z.of_nat j < H ->
  scan (run c s (scanlines c tm true j)) = (R, R, Z.of_nat j, 0).
Proof.
  intros E HR. induction j as [| j IH]; intros Hj.
  - exact E.
  - rewrite scanlines_snoc, run_app.
    rewrite (scan_after_scanline _ R (Z.of_nat j)) by (try apply IH; lia).
    replace (Z.of_nat j =? H - 1) with false by (symmetry; apply Z.eqb_neq; lia).
    repeat f_equal. lia.
Qed.

Lemma always_lines (P : Z * Z * Z * Z -> Prop) (s : State) (R : Z) (j : nat) :
  scan s = (R, R, 0, 0) -> 0 <= R < M -> Z.of_nat j < H ->
  (forall i v h, 0 <= i <= n -> 0 <= v < H -> 0 <= h < W ->
                 P ((R + i) mod M, R, v, h)) ->
  always c (fun x => P (scan x)) s (scanlines c tm true j).
Proof.
  intros E HR Hj HP. induction j as [| j IH].
  - simpl. rewrite E. rewrite <- (Z.mod_small R M HR) at 1.
    rewrite <- (Z.add_0_r R) at 1. apply HP; lia.
  - rewrite scanlines_snoc. apply always_app. split; [apply IH; lia |].
    apply always_scanline with R (Z.of_nat j);
      try (apply scan_after_lines; assumption || lia); try lia.
    + intros i h Hi Hh. apply HP; lia.
    + replace (Z.of_nat j =? H - 1) with false
        by (symmetry; apply Z.eqb_neq; lia).
      rewrite <- (Z.mod_small R M HR) at 1.
      rewrite <- (Z.add_0_r R) at 1. apply HP; lia.
Qed.

End Scanline.

(** ** The addresses read along a scanline *)

Lemma dedup_adj_same (x : Z) (t : list Z) :
  dedup_adj (x :: x :: t) = dedup_adj (x :: t).
Proof. cbn [dedup_adj]. now rewrite Z.eqb_refl. Qed.

Lemma dedup_adj_diff (x y : Z) (t : list Z) :
  x <> y -> dedup_adj (x :: y :: t) = x :: dedup_adj (y :: t).
Proof.
  intros Hn. cbn [dedup_adj].
  destruct (x =? y) eqn:E; [apply Z.eqb_eq in E; contradiction | reflexivity].
Qed.

Lemma dedup_adj_run (x : Z) (k : nat) (t : list Z) :
  dedup_adj (repeat x k ++ x :: t) = dedup_adj (x :: t).
Proof.
  induction k as [| k IH]; [reflexivity |].
  change (repeat x (S k) ++ x :: t) with (x :: (repeat x k ++ x :: t)).
  destruct k as [| k].
  - apply dedup_adj_same.
  - change (repeat x (S k) ++ x :: t) with (x :: (repeat x k ++ x :: t)) in *.
    rewrite dedup_adj_same. exact IH.
Qed.

Lemma dedup_adj_const (x : Z) (k : nat) : dedup_adj (repeat x (S k)) = [x].
Proof.
  induction k as [| k IH]; [reflexivity |].
  change (repeat x (S (S k))) with (x :: x :: repeat x k).
  rewrite dedup_adj_same. exact IH.
Qed.

Lemma map_const_repeat {A B : Type} (f : A -> B) (y : B) (l : list A) :
  (forall x, In x l -> f x = y) -> map f l = repeat y (length l).
Proof.
  induction l as [| a l IH]; intros Hc; simpl; [reflexivity |].
  rewrite Hc by (now left). f_equal. apply IH. intros x Hx. apply Hc. now right.
Qed.

Lemma zseq_snoc_mod (a m : Z) (k : nat) :
  0 <= a -> a + Z.of_nat k <= m ->
  map (fun j => (a + Z.of_nat j) mod m) (seq 0 (S k)) =
  zseq a k ++ [(a + Z.of_nat k) mod m].
Proof.
  intros Ha Hk. rewrite seq_S, map_app. simpl. f_equal.
  unfold zseq. apply map_ext_in. intros j Hj. apply in_seq in Hj.
  apply Z.mod_small. lia.
Qed.

Section Trace.

Variable c : Config.

Let W := font_width c.
Let M := char_mod c.

Hypothesis HW : 2 <= W.
Hypothesis HM : 2 <= M.

Lemma addr_trace_repeat (s : State) (i : Inputs) (m : nat) :
  addr_trace c s (repeat i m) =
  map (fun k => char_ctr (run c s (repeat i k))) (seq 0 m).
Proof.
  revert s. induction m as [| m IH]; intros s; [reflexivity |].
  cbn [repeat addr_trace seq map]. f_equal.
  rewrite IH, <- seq_shift, map_map. reflexivity.
Qed.

Lemma char_ctr_scan (s : State) (cc l v h : Z) :
  scan s = (cc, l, v, h) -> char_ctr s = cc.
Proof. unfold scan. intros E. now inversion E. Qed.

(** Within one glyph span the counter is advanced by the first tick. *)
Lemma trace_span (s : State) (cc l v : Z) :
  scan s = (cc, l, v, 0) -> 0 <= cc < M ->
  addr_trace c s (repeat (pixel_in true) (Z.to_nat W)) =
  cc :: repeat ((cc + 1) mod M) (Z.to_nat W - 1).
Proof.
  intros E Hcc. rewrite addr_trace_repeat.
  destruct (Z.to_nat W) as [| w] eqn:EW; [lia |].
  cbn [seq map]. f_equal; [now apply char_ctr_scan with l v 0 |].
  replace (S w - 1)%nat with (length (seq 1 w)) by (rewrite length_seq; lia).
  apply map_const_repeat. intros k Hk. apply in_seq in Hk.
  erewrite char_ctr_scan;
    [| apply (scan_run_pixels c s cc l v k); [fold W; lia | exact E | exact Hcc]].
  fold W. rewrite cdiv_first_span by lia. reflexivity.
Qed.

Lemma scan_after_span (s : State) (cc l v : Z) :
  scan s = (cc, l, v, 0) -> 0 <= cc < M ->
  scan (run c s (repeat (pixel_in true) (Z.to_nat W))) =
  ((cc + 1) mod M, l, v, 0).
Proof.
  intros E Hcc.
  rewrite (scan_run_pixels c s cc l v _ ltac:(fold W; lia) E Hcc).
  rewrite Z2Nat.id by lia. fold W.
  rewrite cdiv_first_span, Z.mod_same by lia. reflexivity.
Qed.

Lemma succ_mod_differs (cc : Z) : 0 <= cc < M -> cc <> (cc + 1) mod M.
Proof.
  intros Hcc. destruct (Z.eq_dec (cc + 1) M) as [E | E].
  - rewrite E, Z.mod_same by lia. lia.
  - rewrite Z.mod_small by lia. lia.
Qed.

(** The distinct addresses met while [m + 1] cells are scanned: the cells
    themselves and the one fetched ahead. *)
Lemma dedup_cells (m : nat) (s : State) (cc l v : Z) :
  scan s = (cc, l, v, 0) -> 0 <= cc < M ->
  dedup_adj (addr_trace c s (repeat (pixel_in true) (S m * Z.to_nat W))) =
  map (fun j => (cc + Z.of_nat j) mod M) (seq 0 (S (S m))).
Proof.
  revert s cc. induction m as [| m IH]; intros s cc E Hcc.
  - rewrite Nat.mul_1_l, (trace_span s cc l v E Hcc).
    destruct (Z.to_nat W - 1)%nat as [| w] eqn:EW; [lia |].
    cbn [repeat]. rewrite dedup_adj_diff by now apply succ_mod_differs.
    change ((cc + 1) mod M :: repeat ((cc + 1) mod M) w)
      with (repeat ((cc + 1) mod M) (S w)).
    rewrite dedup_adj_const. cbn [seq map].
    change (Z.of_nat 0) with 0. change (Z.of_nat 1) with 1.
    rewrite Z.add_0_r, (Z.mod_small cc M) by lia. reflexivity.
  - replace (S (S m) * Z.to_nat W)%nat
      with (Z.to_nat W + S m * Z.to_nat W)%nat by lia.
    rewrite repeat_app, addr_trace_app, (trace_span s cc l v E Hcc).
    pose proof (scan_after_span s cc l v E Hcc) as E'.
    assert (Hc' : 0 <= (cc + 1) mod M < M) by (apply Z.mod_pos_bound; lia).
    specialize (IH _ _ E' Hc').
    set (s' := run c s (repeat (pixel_in true) (Z.to_nat W))) in *.
    destruct (S m * Z.to_nat W)%nat as [| t] eqn:ET; [lia |].
    cbn [repeat addr_trace] in *.
    rewrite (char_ctr_scan s' _ _ _ _ E') in *.
    destruct (Z.to_nat W - 1)%nat as [| w] eqn:EW; [lia |].
    cbn [repeat app].
    rewrite dedup_adj_diff by now apply succ_mod_differs.
    set (T := addr_trace c (step c s' (pixel_in true))
                (repeat (pixel_in true) t)) in *.
    change (cc :: dedup_adj (repeat ((cc + 1) mod M) (S w)
                               ++ (cc + 1) mod M :: T) =
            map (fun j => (cc + Z.of_nat j) mod M) (seq 0 (S (S (S m))))).
    rewrite dedup_adj_run, IH.
    change (seq 0 (S (S (S m)))) with (0%nat :: seq 1 (S (S m))).
    rewrite <- seq_shift, map_cons, map_map.
    change (Z.of_nat 0) with 0.
    rewrite Z.add_0_r, (Z.mod_small cc M) by lia. f_equal.
    apply map_ext. intros j.
    rewrite Z.add_mod_idemp_l by lia. f_equal. lia.
Qed.

End Trace.

(** ** A whole frame *)

Lemma mod_le_bound (x t m : Z) :
  0 < m -> 0 <= x <= t -> t <= m -> 0 <= x mod m <= t.
Proof.
  intros Hm Hx Ht. destruct (Z.eq_dec x m) as [E | E].
  - subst x. rewrite Z.mod_same by lia. lia.
  - rewrite Z.mod_small by lia. lia.
Qed.

Lemma div_mod_succ_last (y h : Z) :
  0 < h -> y mod h = h - 1 -> (y + 1) / h = y / h + 1 /\ (y + 1) mod h = 0.
Proof.
  intros Hh E. pose proof (Z.div_mod y h ltac:(lia)) as D. split.
  - symmetry. apply Z.div_unique with 0; lia.
  - symmetry. apply Z.mod_unique with (y / h + 1); lia.
Qed.

Lemma div_mod_succ_inner (y h : Z) :
  0 < h -> y mod h <> h - 1 ->
  (y + 1) / h = y / h /\ (y + 1) mod h = y mod h + 1.
Proof.
  intros Hh E. pose proof (Z.div_mod y h ltac:(lia)) as D.
  pose proof (Z.mod_pos_bound y h Hh) as B. split.
  - symmetry. apply Z.div_unique with (y mod h + 1); lia.
  - symmetry. apply Z.mod_unique with (y / h); lia.
Qed.

Section WholeFrame.

Variable c : Config.
Variable tm : Timing.

Let W := font_width c.
Let H := font_height c.
Let n := cells_per_row c.
Let rows := v_active c / font_height c.
Let M := char_mod c.
Let total := char_depth c.

Hypothesis HW : 2 <= W.
Hypothesis HH : 2 <= H.
Hypothesis HD : 2 <= total.
Hypothesis Hwf : well_formed c.

Lemma h_active_cells : h_active c = n * W.
Proof.
  destruct Hwf as (_ & _ & E & _).
  pose proof (Z.div_mod (h_active c) W ltac:(lia)) as D.
  unfold n, cells_per_row. fold W in E |- *. lia.
Qed.

Lemma v_active_rows : v_active c = rows * H.
Proof.
  destruct Hwf as (_ & _ & _ & E).
  pose proof (Z.div_mod (v_active c) H ltac:(lia)) as D.
  unfold rows. fold H in E |- *. lia.
Qed.

Lemma cells_pos : 1 <= n.
Proof.
  destruct Hwf as (P1 & _). pose proof h_active_cells. nia.
Qed.

Lemma rows_pos : 1 <= rows.
Proof.
  destruct Hwf as (_ & P2 & _). pose proof v_active_rows. nia.
Qed.

Lemma total_cells : total = n * rows.
Proof. reflexivity. Qed.

Lemma total_le_mod : total <= M.
Proof. apply char_mod_ge_depth. fold total. lia. Qed.

(** The scan counters when scanline [y] of the active area begins. *)
Let line_start (y : Z) : Z * Z * Z * Z :=
  ((y / H * n) mod M, (y / H * n) mod M, y mod H, 0).

Let within (sc : Z * Z * Z * Z) : Prop :=
  let '(cc, l, _, _) := sc in 0 <= cc <= total /\ 0 <= l <= total.

Lemma row_base_range (y : Z) :
  0 <= y < v_active c ->
  0 <= y / H * n /\ y / H * n + n <= total.
Proof.
  intros Hy. pose proof cells_pos. pose proof v_active_rows as V.
  assert (0 <= y / H) by (apply Z.div_pos; lia).
  assert (y / H < rows) by (apply Z.div_lt_upper_bound; lia).
  rewrite total_cells. nia.
Qed.

Lemma frame_line (s : State) (y : Z) :
  0 <= y < v_active c -> scan s = line_start y ->
  scan (run c s (scanline c tm true)) = line_start (y + 1) /\
  always c (fun x => within (scan x)) s (scanline c tm true).
Proof.
  intros Hy E.
  pose proof (row_base_range y Hy) as [R0 R1].
  pose proof total_le_mod. pose proof cells_pos. pose proof h_active_cells.
  pose proof (Z.mod_pos_bound y H ltac:(lia)) as Bv.
  unfold line_start in E. rewrite (Z.mod_small (y / H * n) M) in E by lia.
  assert (Hnext :
    (if y mod H =? H - 1
     then ((y / H * n + n) mod M, (y / H * n + n) mod M, 0, 0)
     else (y / H * n, y / H * n, y mod H + 1, 0)) = line_start (y + 1)).
  { unfold line_start. destruct (y mod H =? H - 1) eqn:T.
    - apply Z.eqb_eq in T.
      destruct (div_mod_succ_last y H ltac:(lia) T) as [-> ->].
      replace ((y / H + 1) * n) with (y / H * n + n) by lia. reflexivity.
    - apply Z.eqb_neq in T.
      destruct (div_mod_succ_inner y H ltac:(lia) T) as [-> ->].
      rewrite (Z.mod_small (y / H * n) M) by lia. reflexivity. }
  split.
  - rewrite <- Hnext.
    apply scan_after_scanline; fold W; fold n; fold M; fold H; try lia.
    exact E.
  - apply always_scanline with (y / H * n) (y mod H);
      fold W; fold n; fold M; fold H; try lia; try exact E.
    + intros j h Hj Hh. unfold within.
      split; [apply mod_le_bound; lia | lia].
    + destruct (y mod H =? H - 1); unfold within.
      * split; apply mod_le_bound; lia.
      * lia.
Qed.

Lemma frame_lines (m : nat) (s : State) (y : Z) :
  0 <= y -> y + Z.of_nat m <= v_active c -> scan s = line_start y ->
  scan (run c s (scanlines c tm true m)) = line_start (y + Z.of_nat m) /\
  always c (fun x => within (scan x)) s (scanlines c tm true m).
Proof.
  intros Hy. induction m as [| m IH]; intros Hm E.
  - change (scanlines c tm true 0) with (@nil Inputs).
    change (run c s []) with s. cbn [always].
    rewrite Z.add_0_r. split; [exact E |].
    rewrite E. unfold line_start, within.
    destruct (Z.eq_dec y (v_active c)) as [Ey | Ey].
    + pose proof v_active_rows as V. pose proof total_le_mod.
      pose proof cells_pos. pose proof rows_pos.
      rewrite Ey, V, Z.div_mul by lia.
      replace (rows * n) with total by (rewrite total_cells; lia).
      split; apply mod_le_bound; lia.
    + pose proof (row_base_range y ltac:(lia)). pose proof total_le_mod.
      pose proof cells_pos.
      split; apply mod_le_bound; lia.
  - destruct IH as [IH1 IH2]; [lia | exact E |].
    rewrite scanlines_snoc, run_app.
    destruct (frame_line (run c s (scanlines c tm true m)) (y + Z.of_nat m))
      as [L1 L2]; [lia | exact IH1 |].
    split.
    + rewrite L1. f_equal. lia.
    + apply always_app. split; assumption.
Qed.

(** Every state of a normal frame, from the vertical sync on. *)
Lemma frame_within (s : State) :
  always c (fun x => within (scan x)) (step c s vsync_in)
    (scanlines c tm false (v_back tm)
       ++ scanlines c tm true (Z.to_nat (v_active c))
       ++ scanlines c tm false (v_front tm)).
Proof.
  destruct Hwf as (P1 & P2 & _).
  assert (E0 : scan (step c s vsync_in) = line_start 0).
  { rewrite scan_step_vsync by reflexivity. unfold line_start.
    rewrite Z.div_0_l by lia. rewrite Z.mul_0_l.
    rewrite !Z.mod_0_l by (pose proof total_le_mod; lia). reflexivity. }
  assert (B0 : within (line_start 0)).
  { unfold line_start, within. rewrite Z.div_0_l by lia. rewrite Z.mul_0_l.
    rewrite !Z.mod_0_l by (pose proof total_le_mod; lia). lia. }
  apply always_app. split.
  - apply always_idle; [apply idle_blanked_scanlines | now rewrite E0].
  - assert (E1 : scan (run c (step c s vsync_in)
                         (scanlines c tm false (v_back tm))) = line_start 0).
    { rewrite scan_run_idle by apply idle_blanked_scanlines. exact E0. }
    destruct (frame_lines (Z.to_nat (v_active c)) _ 0 ltac:(lia)
                ltac:(lia) E1) as [F1 F2].
    apply always_app. split; [exact F2 |].
    apply always_idle; [apply idle_blanked_scanlines |].
    eapply always_end in F2. exact F2.
Qed.

End WholeFrame.

(** In a normal frame every character row is entered with the cell index
    and the row start at the first cell of the row and both glyph counters
    at zero, and the row ends within the range of the cell counter. *)
Lemma row_group_entry (c : Config) (tm : Timing) (s0 s : State) (k : nat) :
  construct c = inr s0 -> well_formed c ->
  Z.of_nat k < v_active c / font_height c ->
  scan (run c s (vsync_in :: scanlines c tm false (v_back tm)
                   ++ scanlines c tm true (k * Z.to_nat (font_height c)))) =
  (Z.of_nat k * cells_per_row c, Z.of_nat k * cells_per_row c, 0, 0) /\
  Z.of_nat k * cells_per_row c + cells_per_row c <= char_mod c.
Proof.
  intros Hc Hwf Hk.
  destruct (construct_inv c s0 Hc) as (_ & HW & HH & _ & HD).
  pose proof (v_active_rows c HH Hwf) as V.
  pose proof (cells_pos c HW HD Hwf) as Hn.
  pose proof (total_le_mod c HD) as HM.
  assert (HT : Z.of_nat k * cells_per_row c + cells_per_row c <= char_depth c).
  { unfold char_depth. fold (cells_per_row c). nia. }
  split; [| lia].
  rewrite run_cons, run_app.
  assert (E0 : scan (run c (step c s vsync_in) (scanlines c tm false (v_back tm)))
               = ((0 / font_height c * cells_per_row c) mod char_mod c,
                  (0 / font_height c * cells_per_row c) mod char_mod c,
                  0 mod font_height c, 0)).
  { rewrite scan_run_idle by apply idle_blanked_scanlines.
    rewrite scan_step_vsync by reflexivity.
    rewrite Z.div_0_l by lia. rewrite Z.mul_0_l.
    now rewrite !Z.mod_0_l by lia. }
  destruct (frame_lines c tm HW HH HD Hwf (k * Z.to_nat (font_height c)) _ 0
              ltac:(lia) ltac:(nia) E0) as [F _].
  rewrite F.
  replace (0 + Z.of_nat (k * Z.to_nat (font_height c)))
    with (Z.of_nat k * font_height c) by nia.
  rewrite Z.div_mul, Z.mod_mul by lia.
  rewrite Z.mod_small by nia. reflexivity.
Qed.

(** At the end of the active pixels of the last scanline the cell index
    has run one past the last cell, up to the width of the register. *)
Lemma cell_index_at_frame_end (c : Config) (tm : Timing) (s0 s : State) :
  construct c = inr s0 -> well_formed c ->
  char_ctr (run c s (vsync_in :: scanlines c tm false (v_back tm)
                       ++ scanlines c tm true (Z.to_nat (v_active c) - 1)
                       ++ scanline_head c tm true)) =
  char_depth c mod char_mod c.
Proof.
  intros Hc Hwf.
  destruct (construct_inv c s0 Hc) as (_ & HW & HH & _ & HD).
  pose proof (v_active_rows c HH Hwf) as V.
  pose proof (rows_pos c HH HD Hwf) as Hr.
  pose proof (cells_pos c HW HD Hwf) as Hn.
  pose proof (total_le_mod c HD) as HM.
  pose proof (h_active_cells c HW Hwf) as Hact.
  rewrite run_cons, !run_app.
  assert (E0 : scan (run c (step c s vsync_in) (scanlines c tm false (v_back tm)))
               = ((0 / font_height c * cells_per_row c) mod char_mod c,
                  (0 / font_height c * cells_per_row c) mod char_mod c,
                  0 mod font_height c, 0)).
  { rewrite scan_run_idle by apply idle_blanked_scanlines.
    rewrite scan_step_vsync by reflexivity.
    rewrite Z.div_0_l by lia. rewrite Z.mul_0_l.
    now rewrite !Z.mod_0_l by lia. }
  destruct (frame_lines c tm HW HH HD Hwf (Z.to_nat (v_active c) - 1) _ 0
              ltac:(lia) ltac:(lia) E0) as [F _].
  assert (Ediv : (0 + Z.of_nat (Z.to_nat (v_active c) - 1)) / font_height c
                 = v_active c / font_height c - 1).
  { symmetry. apply Z.div_unique with (font_height c - 1); nia. }
  rewrite Ediv in F.
  assert (Hbase : 0 <= (v_active c / font_height c - 1) * cells_per_row c
                  < char_mod c).
  { unfold char_depth in HM. fold (cells_per_row c) in HM. nia. }
  rewrite (Z.mod_small _ _ Hbase) in F.
  pose proof (scan_after_head c tm ltac:(lia) ltac:(lia) Hact _ _ _ F Hbase) as A.
  unfold scan in A. injection A as A _ _ _. rewrite A. f_equal.
  unfold char_depth. fold (cells_per_row c). lia.
Qed.

(** ** Bit order of the glyph row *)

Lemma Cat_testbit (l : list bool) (n : Z) :
  0 <= n -> Z.testbit (Cat l) n = nth (Z.to_nat n) l false.
Proof.
  revert n. induction l as [| x l IH]; intros n Hn.
  - simpl. rewrite Z.testbit_0_l. now destruct (Z.to_nat n).
  - cbn [Cat]. rewrite Z.add_comm.
    destruct (Z.eq_dec n 0) as [-> | Hz].
    + rewrite Z.testbit_0_r. reflexivity.
    + replace n with (Z.succ (n - 1)) at 1 by lia.
      rewrite Z.testbit_succ_r, IH by lia.
      replace (Z.to_nat n) with (S (Z.to_nat (n - 1))) by lia. reflexivity.
Qed.

Lemma font_line_reversed (c : Config) (s : State) :
  bits_reversed (font_width c) (font_dat_r s) (font_line c s).
Proof.
  intros n Hn. unfold font_line. rewrite Cat_testbit by lia.
  set (L := map (Z.testbit (font_dat_r s)) (range (font_width c))).
  assert (HL : length L = Z.to_nat (font_width c)).
  { unfold L, range. now rewrite !length_map, length_seq. }
  rewrite rev_nth by lia. rewrite HL. unfold L, range.
  rewrite map_map.
  rewrite nth_indep with (d' := Z.testbit (font_dat_r s) (Z.of_nat 0))
    by (rewrite length_map, length_seq; lia).
  rewrite (map_nth (fun x => Z.testbit (font_dat_r s) (Z.of_nat x))).
  rewrite seq_nth by lia. f_equal. lia.
Qed.

(** ** The blink oscillator in closed form *)

Section Blink.

Variable c : Config.
Let P := blink_cyc c.
Hypothesis HP : 2 <= P.

Lemma blink_step (s : State) (i : Inputs) :
  0 <= blink_ctr s < P ->
  blink_ctr (step c s i) = (blink_ctr s + 1) mod P /\
  blink_reg (step c s i) = xorb (blink_reg s) (blink_ctr s =? P - 1).
Proof.
  intros Hb. simpl. unfold next_blink_ctr, next_blink_reg. fold P.
  destruct (blink_ctr s =? P - 1) eqn:T.
  - apply Z.eqb_eq in T. split.
    + replace (blink_ctr s + 1) with P by lia. now rewrite Z.mod_same by lia.
    + now rewrite xorb_true_r.
  - apply Z.eqb_neq in T. split.
    + unfold blink_bits. fold P. rewrite trunc_below_max by lia.
      now rewrite Z.mod_small by lia.
    + now rewrite xorb_false_r.
Qed.

Lemma blink_run (ins : list Inputs) (s : State) :
  0 <= blink_ctr s < P ->
  blink_ctr (run c s ins) = (blink_ctr s + Z.of_nat (length ins)) mod P /\
  blink_reg (run c s ins) =
  xorb (blink_reg s) (Z.odd ((blink_ctr s + Z.of_nat (length ins)) / P)).
Proof.
  revert s. induction ins as [| i l IH]; intros s Hb.
  - simpl. rewrite Z.add_0_r, Z.mod_small, Z.div_small by lia.
    now rewrite xorb_false_r.
  - rewrite run_cons.
    destruct (blink_step s i Hb) as [E1 E2].
    assert (Hb' : 0 <= blink_ctr (step c s i) < P)
      by (rewrite E1; apply Z.mod_pos_bound; lia).
    destruct (IH _ Hb') as [I1 I2]. rewrite I1, I2, E1, E2.
    replace (Z.of_nat (length (i :: l))) with (1 + Z.of_nat (length l))
      by (simpl length; lia).
    rewrite Z.add_assoc. split.
    + now rewrite Z.add_mod_idemp_l by lia.
    + destruct (blink_ctr s =? P - 1) eqn:T.
      * apply Z.eqb_eq in T.
        replace (blink_ctr s + 1) with P by lia.
        rewrite Z.mod_same, Z.add_0_l by lia.
        replace (P + Z.of_nat (length l)) with (Z.of_nat (length l) + 1 * P) by lia.
        rewrite Z.div_add by lia.
        replace (Z.of_nat (length l) / P + 1) with (Z.succ (Z.of_nat (length l) / P)) by lia.
        rewrite Z.odd_succ, <- Z.negb_odd.
        now destruct (blink_reg s), (Z.odd (Z.of_nat (length l) / P)).
      * apply Z.eqb_neq in T. rewrite (Z.mod_small (blink_ctr s + 1)) by lia.
        now rewrite xorb_false_r.
Qed.

End Blink.

Lemma blink_independent (c : Config) (a b : list Inputs) (s1 s2 : State) :
  blink_ctr s1 = blink_ctr s2 -> blink_reg s1 = blink_reg s2 ->
  length a = length b ->
  blink_ctr (run c s1 a) = blink_ctr (run c s2 b) /\
  blink_reg (run c s1 a) = blink_reg (run c s2 b).
Proof.
  revert b s1 s2. induction a as [| i a IH]; intros [| j b] s1 s2 E1 E2 L;
    try discriminate.
  - now split.
  - rewrite !run_cons. apply IH.
    + simpl. unfold next_blink_ctr. now rewrite E1.
    + simpl. unfold next_blink_reg. now rewrite E1, E2.
    + simpl in L. lia.
Qed.

(** * The claims *)

(** ** Scan position tracker *)

(** C3 — frame reset.  On a tick with the vertical sync asserted, whatever
    the state and whatever the other three timing inputs, the next state
    has [char_ctr], [char_l_ctr], [font_v_ctr] and [font_h_ctr] all zero:
    the reset wins over the line advance and the pixel advance. *)
Theorem frame_reset_overrides (c : Config) (s : State) (i : Inputs) :
  v_stb i = true ->
  char_ctr (step c s i) = 0 /\ char_l_ctr (step c s i) = 0 /\
  font_v_ctr (step c s i) = 0 /\ font_h_ctr (step c s i) = 0.
Proof.
  intros Hv. pose proof (scan_step_vsync c s i Hv) as E.
  unfold scan in E. injection E as E1 E2 E3 E4. repeat split; assumption.
Qed.

Lemma frame_reset_overrides_witness :
  char_ctr (step cfg_pow2 st_busy (mkInputs true true true true)) = 0 /\
  char_l_ctr (step cfg_pow2 st_busy (mkInputs true true true true)) = 0 /\
  font_v_ctr (step cfg_pow2 st_busy (mkInputs true true true true)) = 0 /\
  font_h_ctr (step cfg_pow2 st_busy (mkInputs true true true true)) = 0.
Proof.
  apply (frame_reset_overrides cfg_pow2 st_busy (mkInputs true true true true)).
  reflexivity.
Defined.

(** C2 — line advance.  On a tick of a running engine with horizontal sync
    and vertical enable active and vertical sync inactive: on the last
    scanline of a glyph ([font_v_ctr = font_height - 1]) the row start takes
    the current cell index and the scanline counter returns to 0; on any
    other scanline the cell index is rolled back to the row start and the
    scanline counter is incremented; the column counter becomes 0 either
    way. *)
Theorem line_advance (c : Config) (s : State) (i : Inputs) :
  reachable c s ->
  v_stb i = false -> h_stb i = true -> v_en i = true ->
  (font_v_ctr s = font_height c - 1 ->
   char_l_ctr (step c s i) = char_ctr s /\ font_v_ctr (step c s i) = 0) /\
  (font_v_ctr s <> font_height c - 1 ->
   char_ctr (step c s i) = char_l_ctr s /\
   font_v_ctr (step c s i) = font_v_ctr s + 1) /\
  font_h_ctr (step c s i) = 0.
Proof.
  intros Hr H1 H2 H3.
  destruct (reachable_bounded c s Hr) as ((_ & Hv & _) & _).
  simpl. unfold next_char_ctr, next_char_l_ctr, next_font_v_ctr, next_font_h_ctr.
  rewrite H1, H2, H3. simpl. repeat split.
  - apply Z.eqb_eq in H. now rewrite H.
  - apply Z.eqb_eq in H. now rewrite H.
  - apply Z.eqb_neq in H. now rewrite H.
  - apply Z.eqb_neq in H. rewrite H. unfold font_v_bits.
    apply trunc_below_max. lia.
Qed.

Lemma line_advance_witness :
  char_ctr (step cfg_small (st_small 17) (hsync_in true)) = 0 /\
  font_v_ctr (step cfg_small (st_small 17) (hsync_in true)) = 1 /\
  char_l_ctr (step cfg_small (st_small 26) (hsync_in true)) = 3 /\
  font_v_ctr (step cfg_small (st_small 26) (hsync_in true)) = 0 /\
  font_h_ctr (step cfg_small (st_small 26) (hsync_in true)) = 0.
Proof.
  assert (R17 : reachable cfg_small (st_small 17)).
  { exists reset_state, (firstn 17 (normal_frame cfg_small tm_small)).
    split; reflexivity. }
  assert (R26 : reachable cfg_small (st_small 26)).
  { exists reset_state, (firstn 26 (normal_frame cfg_small tm_small)).
    split; reflexivity. }
  destruct (line_advance cfg_small (st_small 17) (hsync_in true) R17
              eq_refl eq_refl eq_refl) as (_ & A & _).
  destruct (line_advance cfg_small (st_small 26) (hsync_in true) R26
              eq_refl eq_refl eq_refl) as (B & _ & C).
  destruct A as [A1 A2]; [vm_compute; discriminate |].
  destruct B as [B1 B2]; [reflexivity |].
  exact (conj A1 (conj A2 (conj B1 (conj B2 C)))).
Defined.

(** C4, as the code has it — pixel advance.  On a tick of a running engine
    with vertical and horizontal enable active and neither frame reset nor
    line advance enabled: the cell index changes exactly when the column
    counter is 0, and then to its successor modulo [2 ^ char_bits] (the
    plain successor whenever that fits the register); the column counter is
    incremented, except that from [font_width - 1] it returns to 0. *)
Theorem pixel_advance (c : Config) (s : State) (i : Inputs) :
  reachable c s ->
  v_stb i = false -> h_stb i && v_en i = false ->
  v_en i = true -> h_en i = true ->
  (font_h_ctr s = 0 ->
   char_ctr (step c s i) = (char_ctr s + 1) mod 2 ^ char_bits c) /\
  (font_h_ctr s = 0 -> char_ctr s + 1 < 2 ^ char_bits c ->
   char_ctr (step c s i) = char_ctr s + 1) /\
  (font_h_ctr s <> 0 -> char_ctr (step c s i) = char_ctr s) /\
  (font_h_ctr s = font_width c - 1 -> font_h_ctr (step c s i) = 0) /\
  (font_h_ctr s <> font_width c - 1 ->
   font_h_ctr (step c s i) = font_h_ctr s + 1).
Proof.
  intros Hr H1 H2 H3 H4.
  destruct (reachable_bounded c s Hr) as ((Hh & _ & _) & Hc & _).
  simpl. unfold next_char_ctr, next_font_h_ctr.
  rewrite H1, H2, H3, H4. simpl. repeat split.
  - intros E. apply Z.eqb_eq in E. now rewrite E.
  - intros E Hfit. apply Z.eqb_eq in E. rewrite E.
    apply trunc_small. lia.
  - intros E. apply Z.eqb_neq in E. now rewrite E.
  - intros E. apply Z.eqb_eq in E. now rewrite E.
  - intros E. apply Z.eqb_neq in E. rewrite E. unfold font_h_bits.
    apply trunc_below_max. lia.
Qed.

Lemma pixel_advance_witness :
  char_ctr (step cfg_small (st_small 12) (pixel_in true)) = 2 /\
  font_h_ctr (step cfg_small (st_small 12) (pixel_in true)) = 1 /\
  char_ctr (step cfg_small (st_small 13) (pixel_in true)) = 2 /\
  font_h_ctr (step cfg_small (st_small 13) (pixel_in true)) = 0.
Proof.
  assert (R12 : reachable cfg_small (st_small 12)).
  { exists reset_state, (firstn 12 (normal_frame cfg_small tm_small)).
    split; reflexivity. }
  assert (R13 : reachable cfg_small (st_small 13)).
  { exists reset_state, (firstn 13 (normal_frame cfg_small tm_small)).
    split; reflexivity. }
  destruct (pixel_advance cfg_small (st_small 12) (pixel_in true) R12
              eq_refl eq_refl eq_refl eq_refl) as (_ & A & _ & _ & B).
  destruct (pixel_advance cfg_small (st_small 13) (pixel_in true) R13
              eq_refl eq_refl eq_refl eq_refl) as (_ & _ & C & D & _).
  split; [| split; [| split]].
  - refine (A _ _); reflexivity.
  - refine (B _). vm_compute. discriminate.
  - refine (C _). vm_compute. discriminate.
  - refine (D _). reflexivity.
Defined.

(** C4, as the spec words it, fails: in the last character row of a grid of
    eight cells the three-bit cell index stands at 7 with the column
    counter at 0, and the pixel advance takes it to 0, not to 8. *)
Lemma pixel_advance_counterexample :
  reachable cfg_pow2 (st_pow2 40) /\
  v_stb (pixel_in true) = false /\
  h_stb (pixel_in true) && v_en (pixel_in true) = false /\
  v_en (pixel_in true) = true /\ h_en (pixel_in true) = true /\
  font_h_ctr (st_pow2 40) = 0 /\ char_ctr (st_pow2 40) = 7 /\
  char_ctr (step cfg_pow2 (st_pow2 40) (pixel_in true)) = 0 /\
  char_ctr (step cfg_pow2 (st_pow2 40) (pixel_in true))
    <> char_ctr (st_pow2 40) + 1.
Proof.
  split.
  - exists reset_state, (firstn 40 (normal_frame cfg_pow2 tm_small)).
    split; reflexivity.
  - repeat split; try reflexivity. vm_compute. discriminate.
Qed.

(** ** Render latch *)

(** C5 — render latch.  On every tick exactly one of two updates happens.
    When horizontal enable is inactive or the column counter is at
    [font_width - 1], the shift register takes the fetched glyph row with
    its bits in reverse order (bit [font_width - 1] of the row lands at
    position 0), the attribute register takes the fetched attribute, and the
    underline flag takes [font_v_ctr = font_height - 1].  Otherwise the shift
    register moves one position towards bit 0 and the other two registers
    keep their values. *)
Theorem render_latch_update (c : Config) (s : State) (i : Inputs) :
  if negb (h_en i) || (font_h_ctr s =? font_width c - 1)
  then bits_reversed (font_width c) (font_dat_r s) (font_shreg (step c s i)) /\
       Z.testbit (font_shreg (step c s i)) 0 =
         Z.testbit (font_dat_r s) (font_width c - 1) /\
       attr_reg (step c s i) = attr_dat_r s /\
       undrl_reg (step c s i) = (font_v_ctr s =? font_height c - 1)
  else font_shreg (step c s i) = Z.shiftr (font_shreg s) 1 /\
       shifted_down (font_shreg s) (font_shreg (step c s i)) /\
       attr_reg (step c s i) = attr_reg s /\
       undrl_reg (step c s i) = undrl_reg s.
Proof.
  cbn [step font_shreg attr_reg undrl_reg].
  unfold next_font_shreg, next_attr_reg, next_undrl_reg, latch_cond, attr_data.
  destruct (negb (h_en i) || (font_h_ctr s =? font_width c - 1)).
  - repeat split.
    + apply font_line_reversed.
    + destruct (Z_lt_le_dec 0 (font_width c)) as [Hpos | Hneg].
      * rewrite (font_line_reversed c s 0) by lia. f_equal. lia.
      * unfold font_line, range.
        replace (Z.to_nat (font_width c)) with 0%nat by lia.
        cbn [seq map rev Cat].
        now rewrite Z.testbit_0_l, Z.testbit_neg_r by lia.
  - repeat split. intros n Hn. apply Z.shiftr_spec. exact Hn.
Qed.

(** ** Pixel compositor *)

(** C6 — compositor.  The outputs are the spec's formula applied to bit 0 of
    the shift register, the underline flag, the blink phase and the decoded
    attribute register.  For colour 0b101 with underline set and blink
    clear, a foreground bit of 1 and the underline flag set, the pixel is
    red and blue; whenever the blink bit is set and the blink phase is
    false the pixel is black. *)
Theorem compositor (s : State) :
  pix s = spec_pixel (Z.testbit (font_shreg s) 0) (undrl_reg s) (blink_reg s)
                     (decode_attr (attr_reg s)) /\
  (attr_reg s = encode_attr 5 true false ->
   Z.testbit (font_shreg s) 0 = true -> undrl_reg s = true ->
   pix s = mkPixel true false true) /\
  (Z.testbit (attr_reg s) 4 = true -> blink_reg s = false ->
   pix s = mkPixel false false false).
Proof.
  split; [reflexivity |]. split.
  - intros Ha Hb Hu. unfold pix, pix_fg. rewrite Ha, Hb, Hu. reflexivity.
  - intros Ha Hb. unfold pix, pix_fg. rewrite Ha, Hb. simpl.
    now rewrite andb_false_r.
Qed.

Lemma compositor_witness :
  pix (mkState 0 0 0 0 1 13 true 0 false 0 0 0) = mkPixel true false true /\
  pix (mkState 0 0 0 0 1 29 true 0 false 0 0 0) = mkPixel false false false /\
  pix (mkState 0 0 0 0 0 29 true 0 false 0 0 0) = mkPixel false false false.
Proof.
  split; [| split].
  - apply (compositor (mkState 0 0 0 0 1 13 true 0 false 0 0 0)); reflexivity.
  - apply (compositor (mkState 0 0 0 0 1 29 true 0 false 0 0 0)); reflexivity.
  - apply (compositor (mkState 0 0 0 0 0 29 true 0 false 0 0 0)); reflexivity.
Defined.

(** ** Blink oscillator *)

(** C7 — blink oscillator.  In a constructed engine the counter stays
    within [0, blink_cyc - 1]; a tick at [blink_cyc - 1] returns it to 0 and
    inverts the phase, any other tick increments it and keeps the phase.
    After [t] ticks from construction the counter is [t mod blink_cyc] and
    the phase is the parity of [t / blink_cyc], so the phase inverts every
    [blink_cyc] ticks.  From any state, two input sequences of the same
    length leave the same counter and phase. *)
Theorem blink_oscillator (c : Config) (s0 : State) :
  construct c = inr s0 ->
  (forall s i, reachable c s ->
     0 <= blink_ctr s <= blink_cyc c - 1 /\
     (blink_ctr s = blink_cyc c - 1 ->
      blink_ctr (step c s i) = 0 /\ blink_reg (step c s i) = negb (blink_reg s)) /\
     (blink_ctr s <> blink_cyc c - 1 ->
      blink_ctr (step c s i) = blink_ctr s + 1 /\
      blink_reg (step c s i) = blink_reg s)) /\
  (forall ins,
     blink_ctr (run c s0 ins) = Z.of_nat (length ins) mod blink_cyc c /\
     blink_reg (run c s0 ins) = Z.odd (Z.of_nat (length ins) / blink_cyc c)) /\
  (forall s ins ins', length ins = length ins' ->
     blink_ctr (run c s ins) = blink_ctr (run c s ins') /\
     blink_reg (run c s ins) = blink_reg (run c s ins')).
Proof.
  intros Hc. destruct (construct_inv c s0 Hc) as (-> & _ & _ & HP & _).
  split; [| split].
  - intros s i Hr.
    destruct (reachable_bounded c s Hr) as ((_ & _ & Hb) & _).
    split; [lia |]. simpl. unfold next_blink_ctr, next_blink_reg. split.
    + intros E. apply Z.eqb_eq in E. now rewrite E.
    + intros E. apply Z.eqb_neq in E. rewrite E. split; [| reflexivity].
      unfold blink_bits. apply trunc_below_max. lia.
  - intros ins.
    destruct (blink_run c HP ins reset_state ltac:(simpl; lia)) as [E1 E2].
    rewrite E1, E2. simpl. split; reflexivity.
  - intros s ins ins' L. now apply blink_independent.
Qed.

Lemma blink_oscillator_witness :
  blink_ctr (st_small 11) = 11 mod 3 /\ blink_reg (st_small 11) = Z.odd (11 / 3).
Proof.
  destruct (blink_oscillator cfg_small reset_state eq_refl) as (_ & A & _).
  exact (A (firstn 11 (normal_frame cfg_small tm_small))).
Defined.

(** ** Counter ranges *)

(** C10 — counter ranges.  From any state in which the column counter, the
    scanline counter and the blink counter are within their ranges, and
    under any inputs, one tick leaves all three within their ranges: each
    counter is either kept, or reset to 0, or incremented from a value
    strictly below its bound minus one. *)
Theorem counter_bounds_preserved (c : Config) (s : State) (i : Inputs) :
  counters_bounded c s ->
  counters_bounded c (step c s i) /\
  (font_h_ctr (step c s i) = 0 \/ font_h_ctr (step c s i) = font_h_ctr s \/
   font_h_ctr (step c s i) = font_h_ctr s + 1 /\ font_h_ctr s < font_width c - 1) /\
  (font_v_ctr (step c s i) = 0 \/ font_v_ctr (step c s i) = font_v_ctr s \/
   font_v_ctr (step c s i) = font_v_ctr s + 1 /\ font_v_ctr s < font_height c - 1) /\
  (blink_ctr (step c s i) = 0 \/
   blink_ctr (step c s i) = blink_ctr s + 1 /\ blink_ctr s < blink_cyc c - 1).
Proof.
  intros Hb. split; [now apply step_counters_bounded |].
  destruct Hb as (Hh & Hv & Hk). simpl.
  unfold next_font_h_ctr, next_font_v_ctr, next_blink_ctr,
    font_h_bits, font_v_bits, blink_bits.
  repeat split;
    repeat match goal with
           | |- context [if ?x then _ else _] => destruct x eqn:?
           end;
    rewrite ?Z.eqb_neq in *;
    rewrite ?trunc_below_max by lia; lia.
Qed.

Lemma counter_bounds_preserved_witness :
  counters_bounded cfg_small (step cfg_small st_busy (pixel_in true)).
Proof.
  apply (counter_bounds_preserved cfg_small st_busy (pixel_in true)).
  unfold counters_bounded. simpl. lia.
Defined.

(** ** Character rows and frames *)

Lemma Forall_prefix {A : Type} (P : A -> Prop) (k : nat) (l : list A) :
  Forall P l -> Forall P (firstn k l).
Proof.
  revert k. induction l as [| x l IH]; intros [| k] Hl; simpl;
    try constructor; inversion Hl; subst; auto.
Qed.

Lemma row_group_split (c : Config) (tm : Timing) :
  0 < font_height c ->
  row_group c tm = row_group_head c tm ++ scanline_tail tm true.
Proof.
  intros HH. unfold row_group, row_group_head.
  replace (Z.to_nat (font_height c)) with (S (Z.to_nat (font_height c) - 1))
    at 1 by lia.
  rewrite scanlines_snoc. unfold scanline. now rewrite app_assoc.
Qed.

(** C1, as the code has it — row repeat.  Take a well-formed configuration
    and a character row entered with cell index and row start both [R],
    where [R + cells_per_row] does not exceed [2 ^ char_bits].  On each of
    the [font_height] scanlines of the row, the distinct addresses put on
    the cell buffers during the active pixels are [R, R+1, ...,
    R+cells_per_row-1], each once and in this order, followed by the cell
    fetched ahead.  The row start stays [R] up to the last horizontal sync
    of the row, and from that sync on it is [R + cells_per_row] reduced
    modulo [2 ^ char_bits], which is [R + cells_per_row] itself whenever
    that fits the register. *)
Theorem row_group_rereads (c : Config) (tm : Timing) (s0 s : State) (R : Z) :
  construct c = inr s0 -> well_formed c ->
  0 <= R -> R + cells_per_row c <= char_mod c ->
  scan s = (R, R, 0, 0) ->
  (forall j, (j < Z.to_nat (font_height c))%nat ->
     dedup_adj (addr_trace c (run c s (scanlines c tm true j)) (pixels c true)) =
     zseq R (Z.to_nat (cells_per_row c))
       ++ [(R + cells_per_row c) mod char_mod c]) /\
  (forall k, char_l_ctr (run c s (firstn k (row_group_head c tm))) = R) /\
  row_group c tm = row_group_head c tm ++ scanline_tail tm true /\
  (forall k,
     char_l_ctr (run c s (row_group_head c tm
                            ++ firstn (S k) (scanline_tail tm true))) =
     (R + cells_per_row c) mod char_mod c) /\
  (R + cells_per_row c < char_mod c ->
   char_l_ctr (run c s (row_group c tm)) = R + cells_per_row c).
Proof.
  intros Hc Hwf HR0 HR1 E.
  destruct (construct_inv c s0 Hc) as (_ & HW & HH & _ & HD).
  pose proof (h_active_cells c HW Hwf) as Hact.
  pose proof (cells_pos c HW HD Hwf) as Hn.
  pose proof (total_le_mod c HD) as HM.
  assert (HR : 0 <= R < char_mod c) by lia.
  assert (HW0 : 0 < font_width c) by lia.
  assert (Hn0 : 0 <= cells_per_row c) by lia.
  assert (Ehead : scan (run c s (row_group_head c tm)) =
                  ((R + cells_per_row c) mod char_mod c, R,
                   font_height c - 1, 0)).
  { unfold row_group_head. rewrite run_app.
    rewrite (scan_after_head c tm HW0 Hn0 Hact _ R (font_height c - 1)); auto.
    rewrite (scan_after_lines c tm HW0 Hn0 Hact s R _ E HR) by lia.
    repeat f_equal. lia. }
  assert (Etail : forall k,
            scan (run c s (row_group_head c tm
                             ++ firstn (S k) (scanline_tail tm true))) =
            ((R + cells_per_row c) mod char_mod c,
             (R + cells_per_row c) mod char_mod c, 0, 0)).
  { intros k. unfold scanline_tail. cbn [firstn]. rewrite run_app, run_cons.
    rewrite scan_run_idle
      by (apply Forall_prefix, Forall_repeat, idle_hblank).
    rewrite (scan_step_hsync c _ _ _ _ _ Ehead) by lia.
    now rewrite Z.eqb_refl. }
  split; [| split; [| split; [| split]]].
  - intros j Hj. unfold pixels. rewrite Hact.
    rewrite Z2Nat.inj_mul by lia.
    destruct (Z.to_nat (cells_per_row c)) as [| m] eqn:Em; [lia |].
    rewrite (dedup_cells c HW ltac:(lia) m _ R R (Z.of_nat j)).
    + rewrite zseq_snoc_mod by lia. repeat f_equal. lia.
    + apply (scan_after_lines c tm HW0 Hn0 Hact s R j E HR). lia.
    + exact HR.
  - apply (always_firstn c (fun x => char_l_ctr x = R)).
    apply always_weaken
      with (P := fun x => (fun sc : Z * Z * Z * Z => snd (fst (fst sc)) = R) (scan x)).
    { intros x Hx. exact Hx. }
    unfold row_group_head. apply always_app. split.
    + apply (always_lines c tm HW0 Hn0 Hact
               (fun sc => snd (fst (fst sc)) = R) s R); auto; lia.
    + apply (always_head c tm HW0 Hn0 Hact
               (fun sc => snd (fst (fst sc)) = R) _ R (font_height c - 1)); auto.
      rewrite (scan_after_lines c tm HW0 Hn0 Hact s R _ E HR) by lia.
      repeat f_equal. lia.
  - apply row_group_split. lia.
  - intros k. specialize (Etail k). unfold scan in Etail.
    now injection Etail.
  - intros Hfit. rewrite row_group_split by lia.
    pose proof (Etail (h_back tm)) as Et.
    replace (firstn (S (h_back tm)) (scanline_tail tm true))
      with (scanline_tail tm true) in Et.
    + unfold scan in Et. injection Et as _ El _ _. rewrite El.
      apply Z.mod_small. lia.
    + symmetry. apply firstn_all2. unfold scanline_tail. simpl.
      rewrite repeat_length. lia.
Qed.

Lemma row_group_rereads_witness :
  dedup_adj (addr_trace cfg_small
               (run cfg_small (st_small 28) (scanlines cfg_small tm_small true 0))
               (pixels cfg_small true)) = [3; 4; 5; 6] /\
  dedup_adj (addr_trace cfg_small
               (run cfg_small (st_small 28) (scanlines cfg_small tm_small true 1))
               (pixels cfg_small true)) = [3; 4; 5; 6] /\
  char_l_ctr (run cfg_small (st_small 28) (row_group_head cfg_small tm_small)) = 3 /\
  char_l_ctr (run cfg_small (st_small 28) (row_group cfg_small tm_small)) = 6.
Proof.
  destruct (row_group_rereads cfg_small tm_small reset_state (st_small 28) 3)
    as (A & B & _ & _ & C).
  - reflexivity.
  - unfold well_formed. simpl. repeat split; lia.
  - lia.
  - vm_compute. discriminate.
  - reflexivity.
  - split; [| split; [| split]].
    + refine (A 0%nat _). simpl. lia.
    + refine (A 1%nat _). simpl. lia.
    + exact (B (length (row_group_head cfg_small tm_small))).
    + refine (C _). reflexivity.
Defined.

(** C1, as the spec words it, fails: with eight cells the last character
    row is entered at [R = 4]; its cells 4..7 are read on both scanlines,
    but the three-bit row start then becomes 0, not [4 + 4]. *)
Lemma row_group_rereads_counterexample :
  construct cfg_pow2 = inr reset_state /\ well_formed cfg_pow2 /\
  scan (st_pow2 34) = (4, 4, 0, 0) /\ cells_per_row cfg_pow2 = 4 /\
  char_l_ctr (run cfg_pow2 (st_pow2 34) (row_group cfg_pow2 tm_small)) = 0 /\
  char_l_ctr (run cfg_pow2 (st_pow2 34) (row_group cfg_pow2 tm_small))
    <> 4 + cells_per_row cfg_pow2.
Proof.
  split; [reflexivity |]. split.
  - unfold well_formed. simpl. repeat split; lia.
  - repeat split; try reflexivity. vm_compute. discriminate.
Qed.

(** C8, as the code has it — cell index range.  In a well-formed
    configuration, in every state of a normal frame from its vertical sync
    on, the cell index and the row start lie between 0 and the total cell
    count, the upper end included; neither counter is wrapped explicitly. *)
Theorem cell_index_within_frame
    (c : Config) (tm : Timing) (s0 s : State) (k : nat) :
  construct c = inr s0 -> well_formed c -> (1 <= k)%nat ->
  0 <= char_ctr (run c s (firstn k (normal_frame c tm))) <= char_depth c /\
  0 <= char_l_ctr (run c s (firstn k (normal_frame c tm))) <= char_depth c.
Proof.
  intros Hc Hwf Hk.
  destruct (construct_inv c s0 Hc) as (_ & HW & HH & _ & HD).
  destruct k as [| k]; [lia |].
  unfold normal_frame. cbn [firstn]. rewrite run_cons.
  pose proof (frame_within c tm HW HH HD Hwf s) as F.
  rewrite always_firstn in F. specialize (F k).
  unfold scan in F. exact F.
Qed.

Lemma cell_index_within_frame_witness :
  0 <= char_ctr (st_small 33) <= char_depth cfg_small /\
  0 <= char_l_ctr (st_small 33) <= char_depth cfg_small.
Proof.
  apply (cell_index_within_frame cfg_small tm_small reset_state reset_state 33).
  - reflexivity.
  - unfold well_formed. simpl. repeat split; lia.
  - lia.
Defined.

(** C8, as the spec words it, fails: with six cells, five active pixels
    into the last character row the cell index equals the total cell count,
    and after the last horizontal sync so does the row start. *)
Lemma cell_index_within_frame_counterexample :
  construct cfg_small = inr reset_state /\ well_formed cfg_small /\
  char_depth cfg_small = 6 /\
  char_ctr (st_small 33) = 6 /\
  ~ char_ctr (st_small 33) < char_depth cfg_small /\
  char_l_ctr (st_small 46) = 6 /\
  ~ char_l_ctr (st_small 46) < char_depth cfg_small.
Proof.
  split; [reflexivity |]. split.
  - unfold well_formed. simpl. repeat split; lia.
  - repeat split; try reflexivity; vm_compute; discriminate.
Qed.

(** ** Construction *)

(** C9, as the code has it — construction.  The constructor checks only
    that the glyph width, the glyph height, the blink half-period and the
    cell count obtained by floor division are at least 2; it succeeds
    exactly then.  Its outcome does not depend on the font data or on the
    initial contents of the buffers, and it does not require the active
    width to be a multiple of the glyph width. *)
Theorem construct_range_checks (c : Config) :
  (construct c = inr reset_state <->
   2 <= font_width c /\ 2 <= font_height c /\ 2 <= blink_cyc c /\
   2 <= (h_active c / font_width c) * (v_active c / font_height c)) /\
  (forall fd ci ai,
     construct (mkConfig (h_active c) (v_active c) fd (font_width c)
                         (font_height c) (blink_cyc c) ci ai) =
     construct c).
Proof.
  split.
  - split.
    + intros Hc. apply construct_inv in Hc. unfold char_depth in Hc. tauto.
    + intros (HW & HH & HP & HD). unfold construct, signal_max_ok.
      fold (char_depth c) in HD.
      replace (font_width c =? 0) with false by (symmetry; apply Z.eqb_neq; lia).
      replace (font_height c =? 0) with false by (symmetry; apply Z.eqb_neq; lia).
      replace (0 <? char_depth c - 1) with true by (symmetry; apply Z.ltb_lt; lia).
      replace (0 <? font_depth c - 1) with true
        by (symmetry; apply Z.ltb_lt; unfold font_depth; lia).
      replace (0 <? font_width c - 1) with true by (symmetry; apply Z.ltb_lt; lia).
      replace (0 <? font_height c - 1) with true by (symmetry; apply Z.ltb_lt; lia).
      replace (0 <? blink_cyc c - 1) with true by (symmetry; apply Z.ltb_lt; lia).
      reflexivity.
  - intros fd ci ai. reflexivity.
Qed.

Lemma construct_range_checks_witness :
  construct cfg_ragged = inr reset_state.
Proof.
  apply (proj2 (proj1 (construct_range_checks cfg_ragged))).
  simpl. lia.
Defined.

(** C9, as the spec words it, fails: an active width of 7 with glyphs 2
    pixels wide, a font of 3 rows where 512 are addressed, and buffer
    contents of 1 and 9 entries for 6 cells are all accepted. *)
Lemma construct_range_checks_counterexample :
  h_active cfg_ragged mod font_width cfg_ragged <> 0 /\
  Z.of_nat (length (font_data cfg_ragged)) <> font_depth cfg_ragged /\
  Z.of_nat (length (char_mem_init cfg_ragged)) <> char_depth cfg_ragged /\
  Z.of_nat (length (attr_mem_init cfg_ragged)) <> char_depth cfg_ragged /\
  construct cfg_ragged = inr reset_state /\
  ~ (exists e, construct cfg_ragged = inl e).
Proof.
  repeat split; try (vm_compute; discriminate).
  intros [e He]. vm_compute in He. discriminate.
Qed.

(** * Further properties of the engine *)

(** ** Register widths and the glyph address *)

Lemma mem_read_range (w d : Z) (init : list Z) (a : Z) :
  0 <= w -> 0 <= mem_read w d init a < 2 ^ w.
Proof.
  intros Hw. unfold mem_read.
  destruct ((0 <=? a) && (a <? d)).
  - now apply trunc_range.
  - split; [lia | apply Z.pow_pos_nonneg; lia].
Qed.

Lemma Cat_range (l : list bool) : 0 <= Cat l < 2 ^ Z.of_nat (length l).
Proof.
  induction l as [| x l IH].
  - simpl. lia.
  - cbn [Cat length]. rewrite Nat2Z.inj_succ, Z.pow_succ_r by lia.
    destruct x; simpl Z.b2z; lia.
Qed.

Lemma bit_reverse_range (w x : Z) : 0 <= w -> 0 <= bit_reverse w x < 2 ^ w.
Proof.
  intros Hw. unfold bit_reverse.
  pose proof (Cat_range (rev (map (Z.testbit x) (range w)))) as R.
  unfold range in R. rewrite length_rev, !length_map, length_seq in R.
  rewrite Z2Nat.id in R by lia. exact R.
Qed.

Lemma font_line_bit_reverse (c : Config) (s : State) :
  font_line c s = bit_reverse (font_width c) (font_dat_r s).
Proof. reflexivity. Qed.

Lemma shiftr_fits (w x : Z) : 0 <= x < 2 ^ w -> 0 <= Z.shiftr x 1 < 2 ^ w.
Proof.
  intros Hx. rewrite Z.shiftr_div_pow2 by lia. change (2 ^ 1) with 2.
  split; [apply Z.div_pos; lia |].
  apply Z.le_lt_trans with x; [| lia].
  apply Z.div_le_upper_bound; lia.
Qed.

Lemma step_latch_fits (c : Config) (s : State) (i : Inputs) :
  0 <= font_width c ->
  0 <= font_shreg s < 2 ^ font_width c -> 0 <= attr_reg s < 2 ^ 5 ->
  0 <= attr_dat_r s < 2 ^ 5 ->
  0 <= font_shreg (step c s i) < 2 ^ font_width c /\
  0 <= attr_reg (step c s i) < 2 ^ 5 /\
  0 <= char_dat_r (step c s i) < 2 ^ 8 /\
  0 <= attr_dat_r (step c s i) < 2 ^ 5 /\
  0 <= font_dat_r (step c s i) < 2 ^ font_width c.
Proof.
  intros HW Hs Ha Hd. cbn [step font_shreg attr_reg char_dat_r attr_dat_r font_dat_r].
  unfold next_font_shreg, next_attr_reg, attr_data.
  split; [| split; [| split; [| split]]]; try (apply mem_read_range; lia).
  - destruct (latch_cond c s i).
    + rewrite font_line_bit_reverse. now apply bit_reverse_range.
    + now apply shiftr_fits.
  - destruct (latch_cond c s i); assumption.
Qed.

Lemma reachable_registers_fit (c : Config) (s : State) :
  reachable c s -> registers_fit c s.
Proof.
  intros Hr.
  assert (Hlatch :
    0 <= font_width c /\ 0 <= font_shreg s < 2 ^ font_width c /\
    0 <= attr_reg s < 2 ^ 5 /\ 0 <= char_dat_r s < 2 ^ 8 /\
    0 <= attr_dat_r s < 2 ^ 5 /\ 0 <= font_dat_r s < 2 ^ font_width c).
  { destruct Hr as (s0 & ins & Hc0 & ->).
    apply construct_inv in Hc0. destruct Hc0 as (-> & HW & _).
    split; [lia |].
    induction ins as [| i l IH] using rev_ind.
    - simpl. assert (0 < 2 ^ font_width c) by (apply Z.pow_pos_nonneg; lia).
      lia.
    - rewrite run_snoc. destruct IH as (I1 & I2 & I3 & I4 & I5).
      apply step_latch_fits; [lia | exact I1 | exact I2 | exact I4]. }
  destruct (reachable_bounded c s Hr) as ((Hh & Hv & Hb) & Hc & Hl).
  destruct Hlatch as (HW & Hs & Ha & Hcd & Had & Hfd).
  unfold registers_fit, font_h_bits, font_v_bits, blink_bits.
  pose proof (bits_for_bound (font_width c - 1) ltac:(lia)).
  pose proof (bits_for_bound (font_height c - 1) ltac:(lia)).
  pose proof (bits_for_bound (blink_cyc c - 1) ltac:(lia)).
  unfold char_mod in Hc, Hl.
  repeat split; lia.
Qed.


Lemma reachable_st_demo (k : nat) : reachable cfg_demo (st_demo k).
Proof.
  exists reset_state, (firstn k (normal_frame cfg_demo tm_demo)).
  split; reflexivity.
Qed.


(** X5 - glyph address.  In every reachable state the address put on the
    font read port is exactly [char_data * font_height + font_v_ctr], with
    no bits lost, and lies inside the [font_height * 256] rows of the font
    memory: the glyph store is never read out of range. *)
Theorem font_adr_in_range (c : Config) (s : State) :
  reachable c s ->
  font_adr c s = char_dat_r s * font_height c + font_v_ctr s /\
  0 <= font_adr c s < font_depth c.
Proof.
  intros Hr.
  destruct (reachable_bounded c s Hr) as ((_ & Hv & _) & _).
  destruct (reachable_registers_fit c s Hr)
    as (_ & _ & _ & _ & _ & _ & _ & Hcd & _).
  change (2 ^ 8) with 256 in Hcd.
  assert (Hin : 0 <= char_dat_r s * font_height c + font_v_ctr s
                < font_depth c) by (unfold font_depth; nia).
  unfold font_adr, char_data, font_adr_bits.
  rewrite trunc_below_max by exact Hin. split; [reflexivity | exact Hin].
Qed.

Lemma font_adr_in_range_witness :
  font_adr cfg_demo (st_demo 40) =
    char_dat_r (st_demo 40) * font_height cfg_demo + font_v_ctr (st_demo 40) /\
  0 <= font_adr cfg_demo (st_demo 40) < font_depth cfg_demo.
Proof.
  apply (font_adr_in_range cfg_demo (st_demo 40)).
  apply reachable_st_demo.
Defined.

(** ** Bit order *)

Lemma bit_reverse_spec (w x n : Z) :
  0 <= n < w -> Z.testbit (bit_reverse w x) n = Z.testbit x (w - 1 - n).
Proof.
  intros Hn. unfold bit_reverse. rewrite Cat_testbit by lia.
  set (L := map (Z.testbit x) (range w)).
  assert (HL : length L = Z.to_nat w).
  { unfold L, range. now rewrite !length_map, length_seq. }
  rewrite rev_nth by lia. rewrite HL. unfold L, range.
  rewrite map_map.
  rewrite nth_indep with (d' := Z.testbit x (Z.of_nat 0))
    by (rewrite length_map, length_seq; lia).
  rewrite (map_nth (fun k => Z.testbit x (Z.of_nat k))).
  rewrite seq_nth by lia. f_equal. lia.
Qed.

Lemma bit_reverse_high (w x n : Z) :
  0 <= w <= n -> Z.testbit (bit_reverse w x) n = false.
Proof.
  intros Hn. unfold bit_reverse. rewrite Cat_testbit by lia.
  apply nth_overflow. unfold range.
  rewrite length_rev, !length_map, length_seq. lia.
Qed.

(** X9 - bit reversal.  The wiring [Cat(reversed(...))] that turns a font
    row into the shift register's load value is its own inverse on [w]-bit
    words: applied twice it returns the low [w] bits of the row. *)
Theorem bit_reverse_involutive (w x : Z) :
  0 <= w -> bit_reverse w (bit_reverse w x) = x mod 2 ^ w.
Proof.
  intros Hw. apply Z.bits_inj'. intros n Hn.
  destruct (Z_lt_le_dec n w) as [Hlt | Hge].
  - rewrite bit_reverse_spec, bit_reverse_spec by lia.
    rewrite Z.mod_pow2_bits_low by lia. f_equal. lia.
  - rewrite bit_reverse_high by lia.
    now rewrite Z.mod_pow2_bits_high by lia.
Qed.

Lemma bit_reverse_involutive_witness :
  bit_reverse 4 (bit_reverse 4 27) = 27 mod 2 ^ 4.
Proof.
  apply (bit_reverse_involutive 4 27). lia.
Defined.

(** ** The scan counters form a machine of their own *)

Lemma scan_step_congr (c1 c2 : Config) (s1 s2 : State) (i : Inputs) :
  same_geometry c1 c2 -> scan s1 = scan s2 ->
  scan (step c1 s1 i) = scan (step c2 s2 i).
Proof.
  intros (G1 & G2 & G3 & G4) E. unfold scan in E.
  injection E as E1 E2 E3 E4.
  unfold scan. cbn [step char_ctr char_l_ctr font_v_ctr font_h_ctr].
  unfold next_char_ctr, next_char_l_ctr, next_font_v_ctr, next_font_h_ctr,
    char_bits, font_v_bits, font_h_bits, char_depth.
  now rewrite E1, E2, E3, E4, G1, G2, G3, G4.
Qed.

Lemma scan_run_congr (c1 c2 : Config) (ins : list Inputs) (s1 s2 : State) :
  same_geometry c1 c2 -> scan s1 = scan s2 ->
  scan (run c1 s1 ins) = scan (run c2 s2 ins) /\
  addr_trace c1 s1 ins = addr_trace c2 s2 ins.
Proof.
  intros G. revert s1 s2. induction ins as [| i l IH]; intros s1 s2 E.
  - split; [exact E | reflexivity].
  - rewrite !run_cons. cbn [addr_trace].
    destruct (IH _ _ (scan_step_congr c1 c2 s1 s2 i G E)) as [I1 I2].
    split; [exact I1 |]. rewrite I2. f_equal.
    unfold scan in E. now injection E.
Qed.

(** X3 - independence of the scan position.  Once a vertical sync has been
    seen, the four scan counters and the addresses read from the cell
    buffers depend only on the timing inputs received since: not on the
    state before the sync, nor on the contents of the buffers and of the
    font, nor on the blink period. *)
Theorem scan_independent
    (c1 c2 : Config) (s1 s2 : State) (i : Inputs) (ins : list Inputs) :
  same_geometry c1 c2 -> v_stb i = true ->
  scan (run c1 s1 (i :: ins)) = scan (run c2 s2 (i :: ins)) /\
  addr_trace c1 (step c1 s1 i) ins = addr_trace c2 (step c2 s2 i) ins.
Proof.
  intros G Hv. rewrite !run_cons. apply scan_run_congr; [exact G |].
  now rewrite !scan_step_vsync.
Qed.

Lemma scan_independent_witness :
  scan (run cfg_demo st_busy (normal_frame cfg_demo tm_demo)) =
  scan (run (mkConfig 8 4 [] 4 2 5 [] []) reset_state
            (normal_frame cfg_demo tm_demo)).
Proof.
  refine (proj1 (scan_independent cfg_demo
                   (mkConfig 8 4 [] 4 2 5 [] []) st_busy reset_state
                   vsync_in _ _ _)).
  - unfold same_geometry. simpl. repeat split; reflexivity.
  - reflexivity.
Defined.

(** ** Where the scan stands inside a frame *)

Lemma line_entry (c : Config) (tm : Timing) (s0 s : State) (y : nat) :
  construct c = inr s0 -> well_formed c -> Z.of_nat y <= v_active c ->
  scan (run c s (vsync_in :: scanlines c tm false (v_back tm)
                   ++ scanlines c tm true y)) =
  ((Z.of_nat y / font_height c * cells_per_row c) mod char_mod c,
   (Z.of_nat y / font_height c * cells_per_row c) mod char_mod c,
   Z.of_nat y mod font_height c, 0).
Proof.
  intros Hc Hwf Hy.
  destruct (construct_inv c s0 Hc) as (_ & HW & HH & _ & HD).
  pose proof (total_le_mod c HD) as HM.
  rewrite run_cons, run_app.
  assert (E0 : scan (run c (step c s vsync_in) (scanlines c tm false (v_back tm)))
               = ((0 / font_height c * cells_per_row c) mod char_mod c,
                  (0 / font_height c * cells_per_row c) mod char_mod c,
                  0 mod font_height c, 0)).
  { rewrite scan_run_idle by apply idle_blanked_scanlines.
    rewrite scan_step_vsync by reflexivity.
    rewrite Z.div_0_l by lia. rewrite Z.mul_0_l.
    now rewrite !Z.mod_0_l by lia. }
  destruct (frame_lines c tm HW HH HD Hwf y _ 0 ltac:(lia) ltac:(lia) E0)
    as [F _].
  exact F.
Qed.

Lemma run_frame_upto (c : Config) (tm : Timing) (s : State) (y x : nat) :
  run c s (frame_upto c tm y x) =
  run c (run c s (vsync_in :: scanlines c tm false (v_back tm)
                    ++ scanlines c tm true y))
        (repeat (pixel_in true) x).
Proof.
  unfold frame_upto. now rewrite !run_cons, !run_app.
Qed.

Lemma row_base_fits (c : Config) (s0 : State) (y : nat) :
  construct c = inr s0 -> well_formed c -> Z.of_nat y < v_active c ->
  0 <= Z.of_nat y / font_height c * cells_per_row c /\
  Z.of_nat y / font_height c * cells_per_row c + cells_per_row c
    <= char_depth c /\
  char_depth c <= char_mod c /\ 1 <= cells_per_row c.
Proof.
  intros Hc Hwf Hy.
  destruct (construct_inv c s0 Hc) as (_ & HW & HH & _ & HD).
  pose proof (row_base_range c HW HH HD Hwf (Z.of_nat y) ltac:(lia)) as [R0 R1].
  pose proof (total_le_mod c HD). pose proof (cells_pos c HW HD Hwf).
  repeat split; assumption.
Qed.

(** X1 - scan position.  In a normal frame of a well-formed configuration,
    [x] pixels into active scanline [y] the row start is the first cell of
    the character row [y / font_height], the scanline counter is
    [y mod font_height], the column counter is [x mod font_width], and the
    cell index is the row start plus [x / font_width] rounded up (reduced
    modulo the register, which changes nothing before the last glyph span
    of the scanline). *)
Theorem scan_position
    (c : Config) (tm : Timing) (s0 s : State) (y x : nat) :
  construct c = inr s0 -> well_formed c ->
  Z.of_nat y < v_active c -> Z.of_nat x <= h_active c ->
  scan (run c s (frame_upto c tm y x)) =
  ((Z.of_nat y / font_height c * cells_per_row c
      + cdiv (Z.of_nat x) (font_width c)) mod char_mod c,
   Z.of_nat y / font_height c * cells_per_row c,
   Z.of_nat y mod font_height c,
   Z.of_nat x mod font_width c) /\
  (Z.of_nat x <= h_active c - font_width c ->
   char_ctr (run c s (frame_upto c tm y x)) =
   Z.of_nat y / font_height c * cells_per_row c
     + cdiv (Z.of_nat x) (font_width c)).
Proof.
  intros Hc Hwf Hy Hx.
  destruct (construct_inv c s0 Hc) as (_ & HW & HH & _ & HD).
  destruct (row_base_fits c s0 y Hc Hwf Hy) as (R0 & R1 & HM & Hn).
  pose proof (h_active_cells c HW Hwf) as Hact.
  pose proof (line_entry c tm s0 s y Hc Hwf ltac:(lia)) as E.
  rewrite (Z.mod_small (Z.of_nat y / font_height c * cells_per_row c)) in E
    by lia.
  assert (Es : scan (run c s (frame_upto c tm y x)) =
    ((Z.of_nat y / font_height c * cells_per_row c
        + cdiv (Z.of_nat x) (font_width c)) mod char_mod c,
     Z.of_nat y / font_height c * cells_per_row c,
     Z.of_nat y mod font_height c,
     Z.of_nat x mod font_width c)).
  { rewrite run_frame_upto.
    apply scan_run_pixels; [lia | exact E | lia]. }
  split; [exact Es |].
  intros Hx'. rewrite (char_ctr_scan _ _ _ _ _ Es).
  apply Z.mod_small.
  assert (0 <= cdiv (Z.of_nat x) (font_width c) <= cells_per_row c - 1).
  { unfold cdiv. split; [apply Z.div_pos; lia |].
    rewrite <- (cdiv_mul (cells_per_row c - 1) (font_width c)) by lia.
    unfold cdiv. apply Z.div_le_mono; nia. }
  lia.
Qed.

Lemma scan_position_witness :
  scan (run cfg_small reset_state (frame_upto cfg_small tm_small 3 3)) =
  ((3 / 2 * 3 + cdiv 3 2) mod 8, 3 / 2 * 3, 3 mod 2, 3 mod 2).
Proof.
  refine (proj1 (scan_position cfg_small tm_small reset_state reset_state
                   3 3 _ _ _ _)).
  - reflexivity.
  - unfold well_formed. simpl. repeat split; lia.
  - simpl. lia.
  - simpl. lia.
Defined.

(** X2 - end of frame.  After all the ticks of a normal frame of a
    well-formed configuration, whatever the state it began in, the cell
    index and the row start both stand at the total cell count (reduced
    modulo the register) and both glyph counters are 0: the frame has
    stepped through every character row exactly once. *)
Theorem frame_end_state (c : Config) (tm : Timing) (s0 s : State) :
  construct c = inr s0 -> well_formed c ->
  scan (run c s (normal_frame c tm)) =
  (char_depth c mod char_mod c, char_depth c mod char_mod c, 0, 0).
Proof.
  intros Hc Hwf.
  destruct (construct_inv c s0 Hc) as (_ & HW & HH & _ & HD).
  pose proof (v_active_rows c HH Hwf) as V.
  destruct Hwf as (P1 & P2 & P3 & P4).
  assert (Hwf : well_formed c) by (unfold well_formed; auto).
  unfold normal_frame.
  replace (vsync_in :: scanlines c tm false (v_back tm)
             ++ scanlines c tm true (Z.to_nat (v_active c))
             ++ scanlines c tm false (v_front tm))
    with ((vsync_in :: scanlines c tm false (v_back tm)
             ++ scanlines c tm true (Z.to_nat (v_active c)))
            ++ scanlines c tm false (v_front tm))
    by (cbn [app]; now rewrite <- app_assoc).
  rewrite run_app, scan_run_idle by apply idle_blanked_scanlines.
  rewrite (line_entry c tm s0 s _ Hc Hwf) by lia.
  rewrite Z2Nat.id by lia.
  rewrite P4.
  replace (v_active c / font_height c * cells_per_row c) with (char_depth c)
    by (unfold char_depth, cells_per_row; lia).
  reflexivity.
Qed.

Lemma frame_end_state_witness :
  scan (run cfg_small st_busy (normal_frame cfg_small tm_small)) =
  (char_depth cfg_small mod char_mod cfg_small,
   char_depth cfg_small mod char_mod cfg_small, 0, 0).
Proof.
  apply (frame_end_state cfg_small tm_small reset_state st_busy).
  - reflexivity.
  - unfold well_formed. simpl. repeat split; lia.
Defined.

(** ** One glyph span of the render latch *)

Lemma shift_run (c : Config) (s : State) (k : nat) :
  0 < font_width c -> font_h_ctr s = 0 -> Z.of_nat k < font_width c ->
  font_h_ctr (run c s (repeat (pixel_in true) k)) = Z.of_nat k /\
  font_shreg (run c s (repeat (pixel_in true) k)) =
    Z.shiftr (font_shreg s) (Z.of_nat k) /\
  attr_reg (run c s (repeat (pixel_in true) k)) = attr_reg s /\
  undrl_reg (run c s (repeat (pixel_in true) k)) = undrl_reg s.
Proof.
  intros HW Hh. induction k as [| k IH]; intros Hk.
  - simpl. now rewrite Z.shiftr_0_r.
  - destruct IH as (I1 & I2 & I3 & I4); [lia |].
    rewrite repeat_snoc, run_snoc.
    set (sk := run c s (repeat (pixel_in true) k)) in *.
    cbn [step font_h_ctr font_shreg attr_reg undrl_reg].
    unfold next_font_h_ctr, next_font_shreg, next_attr_reg, next_undrl_reg,
      latch_cond.
    cbn [pixel_in v_stb h_stb v_en h_en andb negb orb].
    rewrite I1.
    replace (Z.of_nat k =? font_width c - 1) with false
      by (symmetry; apply Z.eqb_neq; lia).
    unfold font_h_bits. rewrite trunc_below_max by lia.
    rewrite I2, I3, I4, Z.shiftr_shiftr by lia.
    repeat split; f_equal; lia.
Qed.

(** X7 - glyph serialisation.  Take any state whose column counter stands at
    [font_width - 1] and feed it active pixels.  The first tick loads the
    latch; [k] ticks later, for every [k] below [font_width], bit 0 of the
    shift register is bit [font_width - 1 - k] of the glyph row that was
    fetched, so the row leaves leftmost pixel first, one pixel per tick,
    while the attribute and the underline flag keep what was latched; and
    the latch is loaded again exactly when [k = font_width - 1], that is
    [font_width] ticks after the previous load. *)
Theorem glyph_serialization (c : Config) (s : State) (k : nat) :
  0 < font_width c -> font_h_ctr s = font_width c - 1 ->
  Z.of_nat k < font_width c ->
  font_shreg (run c s (repeat (pixel_in true) (S k))) =
    Z.shiftr (font_line c s) (Z.of_nat k) /\
  Z.testbit (font_shreg (run c s (repeat (pixel_in true) (S k)))) 0 =
    Z.testbit (font_dat_r s) (font_width c - 1 - Z.of_nat k) /\
  attr_reg (run c s (repeat (pixel_in true) (S k))) = attr_dat_r s /\
  undrl_reg (run c s (repeat (pixel_in true) (S k))) =
    (font_v_ctr s =? font_height c - 1) /\
  latch_cond c (run c s (repeat (pixel_in true) (S k))) (pixel_in true) =
    (Z.of_nat k =? font_width c - 1).
Proof.
  intros HW Hh Hk. cbn [repeat]. rewrite run_cons.
  set (s1 := step c s (pixel_in true)).
  assert (H1 : font_h_ctr s1 = 0).
  { unfold s1. cbn [step font_h_ctr]. unfold next_font_h_ctr.
    cbn [pixel_in v_stb h_stb v_en h_en andb]. now rewrite Hh, Z.eqb_refl. }
  assert (L : latch_cond c s (pixel_in true) = true).
  { unfold latch_cond. cbn [pixel_in h_en negb orb]. now rewrite Hh, Z.eqb_refl. }
  destruct (shift_run c s1 k HW H1 Hk) as (I1 & I2 & I3 & I4).
  assert (E2 : font_shreg s1 = font_line c s).
  { unfold s1. cbn [step font_shreg]. unfold next_font_shreg. now rewrite L. }
  assert (E3 : attr_reg s1 = attr_dat_r s).
  { unfold s1. cbn [step attr_reg]. unfold next_attr_reg. now rewrite L. }
  assert (E4 : undrl_reg s1 = (font_v_ctr s =? font_height c - 1)).
  { unfold s1. cbn [step undrl_reg]. unfold next_undrl_reg. now rewrite L. }
  rewrite I2, I3, I4, E2, E3, E4.
  repeat split.
  - rewrite Z.shiftr_spec by lia. rewrite Z.add_0_l.
    rewrite (font_line_reversed c s (Z.of_nat k)) by lia. reflexivity.
  - unfold latch_cond. cbn [pixel_in h_en negb orb]. now rewrite I1.
Qed.

Lemma glyph_serialization_witness :
  Z.testbit (font_shreg (run cfg_demo (st_demo 17)
                           (repeat (pixel_in true) 3))) 0 =
  Z.testbit (font_dat_r (st_demo 17)) (font_width cfg_demo - 1 - 2).
Proof.
  refine (proj1 (proj2 (glyph_serialization cfg_demo (st_demo 17) 2 _ _ _)));
    [reflexivity | reflexivity | reflexivity].
Defined.

(** ** The read pipeline during blanking *)

Lemma glyph_fetch (c : Config) (s : State) (i : Inputs) :
  0 <= char_dat_r s < 2 ^ 8 -> 0 <= font_v_ctr s < font_height c ->
  font_dat_r (step c s i) = glyph_row c (char_dat_r s) (font_v_ctr s).
Proof.
  intros Hc Hv. change (2 ^ 8) with 256 in Hc.
  cbn [step font_dat_r]. unfold glyph_row, font_adr, char_data, font_adr_bits.
  rewrite trunc_below_max by (unfold font_depth; nia). reflexivity.
Qed.

Lemma scan_fields (s1 s2 : State) :
  scan s1 = scan s2 ->
  char_ctr s1 = char_ctr s2 /\ char_l_ctr s1 = char_l_ctr s2 /\
  font_v_ctr s1 = font_v_ctr s2 /\ font_h_ctr s1 = font_h_ctr s2.
Proof. unfold scan. intros E. repeat split; congruence. Qed.

Lemma scan_tuple (s : State) (cc l v h : Z) :
  scan s = (cc, l, v, h) ->
  char_ctr s = cc /\ char_l_ctr s = l /\ font_v_ctr s = v /\ font_h_ctr s = h.
Proof. unfold scan. intros E. repeat split; congruence. Qed.

Lemma hblank_keeps (c : Config) (s : State) (ve : bool) :
  char_ctr (step c s (hblank_in ve)) = char_ctr s /\
  font_v_ctr (step c s (hblank_in ve)) = font_v_ctr s.
Proof.
  pose proof (scan_step_idle c s (hblank_in ve) (idle_hblank ve)) as E.
  apply scan_fields in E. tauto.
Qed.

Lemma hblank_latches (c : Config) (s : State) (ve : bool) :
  font_shreg (step c s (hblank_in ve)) =
    bit_reverse (font_width c) (font_dat_r s) /\
  attr_reg (step c s (hblank_in ve)) = attr_dat_r s /\
  undrl_reg (step c s (hblank_in ve)) = (font_v_ctr s =? font_height c - 1) /\
  char_dat_r (step c s (hblank_in ve)) = char_at c (char_ctr s) /\
  attr_dat_r (step c s (hblank_in ve)) = attr_at c (char_ctr s).
Proof. repeat split. Qed.

Lemma settled_hblank (c : Config) (s : State) (ve : bool) :
  0 <= font_v_ctr s < font_height c ->
  settled c s -> settled c (step c s (hblank_in ve)).
Proof.
  intros Hv (S1 & S2 & S3 & S4 & S5 & S6).
  destruct (hblank_keeps c s ve) as [K1 K2].
  destruct (hblank_latches c s ve) as (L1 & L2 & L3 & L4 & L5).
  assert (F : font_dat_r (step c s (hblank_in ve)) =
              glyph_row c (char_at c (char_ctr s)) (font_v_ctr s)).
  { rewrite glyph_fetch; [now rewrite S1 | | exact Hv].
    rewrite S1. apply mem_read_range. lia. }
  unfold settled. rewrite K1, K2, L1, L2, L3, L4, L5, F.
  repeat split; try reflexivity; try assumption.
  now rewrite S3.
Qed.

Lemma settle_three (c : Config) (s : State) (ve : bool) :
  0 <= font_v_ctr s < font_height c ->
  settled c (run c s (repeat (hblank_in ve) 3)).
Proof.
  intros Hv. cbn [repeat]. rewrite !run_cons. change (run c ?x []) with x.
  set (s1 := step c s (hblank_in ve)).
  set (s2 := step c s1 (hblank_in ve)).
  destruct (hblank_keeps c s ve) as [K1 K2]. fold s1 in K1, K2.
  destruct (hblank_keeps c s1 ve) as [K3 K4]. fold s2 in K3, K4.
  destruct (hblank_keeps c s2 ve) as [K5 K6].
  destruct (hblank_latches c s ve) as (_ & _ & _ & A4 & A5). fold s1 in A4, A5.
  destruct (hblank_latches c s1 ve) as (_ & B2 & _ & B4 & B5).
  fold s2 in B2, B4, B5.
  destruct (hblank_latches c s2 ve) as (C1 & C2 & C3 & C4 & C5).
  assert (F2 : font_dat_r s2 = glyph_row c (char_at c (char_ctr s)) (font_v_ctr s)).
  { unfold s2. rewrite glyph_fetch.
    - now rewrite A4, K2.
    - rewrite A4. apply mem_read_range. lia.
    - now rewrite K2. }
  assert (F3 : font_dat_r (step c s2 (hblank_in ve)) =
               glyph_row c (char_at c (char_ctr s)) (font_v_ctr s)).
  { rewrite glyph_fetch.
    - now rewrite B4, K1, K4, K2.
    - rewrite B4. apply mem_read_range. lia.
    - now rewrite K4, K2. }
  unfold settled. rewrite K5, K6, K3, K4, K1, K2, C1, C2, C3, C4, C5, F3, F2.
  rewrite B5, K3, K4, K1, K2.
  repeat split; reflexivity.
Qed.

Lemma hblank_settles (c : Config) (s : State) (ve : bool) (k : nat) :
  0 <= font_v_ctr s < font_height c -> (3 <= k)%nat ->
  scan (run c s (repeat (hblank_in ve) k)) = scan s /\
  settled c (run c s (repeat (hblank_in ve) k)).
Proof.
  intros Hv Hk.
  assert (Hs : forall j, scan (run c s (repeat (hblank_in ve) j)) = scan s).
  { intros j. apply scan_run_idle, Forall_repeat, idle_hblank. }
  split; [apply Hs |].
  replace k with (3 + (k - 3))%nat by lia.
  induction (k - 3)%nat as [| j IH].
  - now apply settle_three.
  - replace (3 + S j)%nat with (S (3 + j)) by lia.
    rewrite repeat_snoc, run_snoc. apply settled_hblank; [| exact IH].
    pose proof (Hs (3 + j)%nat) as E. apply scan_fields in E.
    destruct E as (_ & _ & E3 & _). now rewrite E3.
Qed.



(** ** What is on screen *)

Lemma latch_arith (t w : Z) :
  4 <= w -> 0 <= t -> t mod w = w - 1 ->
  cdiv (t - 2) w = (t + 1) / w /\ cdiv (t - 1) w = (t + 1) / w /\
  (t + 1) mod w = 0.
Proof.
  intros Hw Ht E.
  destruct (div_mod_succ_last t w ltac:(lia) E) as [D1 D2].
  pose proof (Z.div_mod t w ltac:(lia)) as D. rewrite E in D.
  rewrite D1. unfold cdiv. repeat split.
  - replace (t - 2 + w - 1) with (w * (t / w + 1) + (w - 4)) by lia.
    apply div_rem_unique. lia.
  - replace (t - 1 + w - 1) with (w * (t / w + 1) + (w - 3)) by lia.
    apply div_rem_unique. lia.
  - exact D2.
Qed.

Lemma cdiv_before_start (w : Z) :
  4 <= w -> cdiv (0 - 1) w = 0 /\ cdiv (0 - 2) w = 0.
Proof.
  intros Hw. unfold cdiv. split; apply Z.div_small; lia.
Qed.

Section Rendering.

Variable c : Config.

Let W := font_width c.
Let H := font_height c.
Let M := char_mod c.

Hypothesis HW : 4 <= W.

Lemma pipe_start (s : State) (R l v : Z) :
  settled c s -> scan s = (R, l, v, 0) -> 0 <= R < M ->
  pipe_at c R v 0 s.
Proof.
  intros (S1 & S2 & S3 & S4 & S5 & S6) E HR.
  unfold scan in E. injection E as E1 E2 E3 E4.
  rewrite E1, E3 in *. rewrite S3 in S4.
  destruct (cdiv_before_start W HW) as [C1 C2].
  unfold pipe_at. fold W. fold M.
  rewrite C1, C2, cdiv_0, Z.div_0_l, Z.mod_0_l, Z.add_0_r, Z.shiftr_0_r by lia.
  rewrite (Z.mod_small R M) by lia.
  repeat split; assumption.
Qed.

Lemma pipe_step (s : State) (R v t : Z) :
  0 <= v < H -> 0 <= t ->
  pipe_at c R v t s -> pipe_at c R v (t + 1) (step c s (pixel_in true)).
Proof.
  intros Hv Ht (P1 & P2 & P3 & P4 & P5 & P6 & P7 & P8 & P9).
  fold W in P1, P3, P4, P5, P6, P7, P8. fold M in P1, P4, P5, P6, P7, P8.
  pose proof (Z.mod_pos_bound t W ltac:(lia)) as Bh.
  assert (Es : scan s = ((R + cdiv t W) mod M, char_l_ctr s, v, t mod W))
    by (unfold scan; congruence).
  pose proof (scan_step_pixel c s _ _ _ _ Es Bh) as E'.
  fold W in E'. fold M in E'.
  assert (L : latch_cond c s (pixel_in true) = (t mod W =? W - 1)).
  { unfold latch_cond. cbn [pixel_in h_en negb orb]. now rewrite P3. }
  assert (F : font_dat_r (step c s (pixel_in true)) =
              glyph_row c (char_at c ((R + cdiv (t - 1) W) mod M)) v).
  { rewrite glyph_fetch; [now rewrite P4, P2 | | now rewrite P2].
    rewrite P4. apply mem_read_range. lia. }
  apply scan_tuple in E'. destruct E' as (E1 & _ & E3 & E4).
  unfold pipe_at. fold W. fold M.
  replace (t + 1 - 1) with t by lia. replace (t + 1 - 2) with (t - 1) by lia.
  rewrite E3, F.
  cbn [step font_shreg attr_reg undrl_reg char_dat_r attr_dat_r].
  unfold next_font_shreg, next_attr_reg, next_undrl_reg. rewrite L.
  fold (char_at c (char_ctr s)). fold (attr_at c (char_ctr s)).
  rewrite P1.
  assert (Ec : char_ctr (step c s (pixel_in true)) =
               (R + cdiv (t + 1) W) mod M).
  { rewrite E1. destruct (t mod W =? 0) eqn:T.
    - apply Z.eqb_eq in T. rewrite cdiv_succ_boundary by lia.
      rewrite Z.add_mod_idemp_l by (pose proof (char_mod_pos c); fold M; lia).
      now rewrite Z.add_assoc.
    - apply Z.eqb_neq in T. now rewrite cdiv_succ_inside by lia. }
  assert (Eh : font_h_ctr (step c s (pixel_in true)) = (t + 1) mod W).
  { rewrite E4. now rewrite (mod_succ t W) by lia. }
  destruct (t mod W =? W - 1) eqn:T.
  - apply Z.eqb_eq in T.
    destruct (latch_arith t W HW Ht T) as (A1 & A2 & A3).
    rewrite A3, Z.shiftr_0_r, <- A1.
    rewrite font_line_bit_reverse, P6.
    unfold attr_data. rewrite P5, A2, A1, P2.
    repeat split; try reflexivity; assumption || (rewrite Eh; exact A3).
  - apply Z.eqb_neq in T.
    destruct (div_mod_succ_inner t W ltac:(lia) T) as [D1 D2].
    rewrite D1, D2, P7, P8, P9, Z.shiftr_shiftr by lia.
    repeat split; try reflexivity; assumption || (rewrite Eh; exact D2).
Qed.

Lemma pipe_run (s : State) (R v : Z) (t : nat) :
  0 <= v < H -> pipe_at c R v 0 s ->
  pipe_at c R v (Z.of_nat t) (run c s (repeat (pixel_in true) t)).
Proof.
  intros Hv P0. induction t as [| t IH]; [exact P0 |].
  rewrite repeat_snoc, run_snoc.
  replace (Z.of_nat (S t)) with (Z.of_nat t + 1) by lia.
  apply pipe_step; [exact Hv | lia | exact IH].
Qed.

End Rendering.

Lemma scanlines_back_porch (c : Config) (tm : Timing) (ve : bool) (m : nat) :
  scanlines c tm ve (S m) =
  (scanlines c tm ve m ++ scanline_head c tm ve ++ [hsync_in ve])
    ++ repeat (hblank_in ve) (h_back tm).
Proof.
  rewrite scanlines_snoc. unfold scanline, scanline_tail.
  rewrite <- !app_assoc. reflexivity.
Qed.

(** Every active scanline of a normal frame begins with the pipeline
    settled, provided the back porch lasts three ticks and a blanked
    scanline precedes the first active one. *)
Lemma line_entry_settled
    (c : Config) (tm : Timing) (s0 s : State) (y : nat) :
  construct c = inr s0 -> well_formed c ->
  (3 <= h_back tm)%nat -> (1 <= v_back tm)%nat ->
  Z.of_nat y < v_active c ->
  settled c (run c s (vsync_in :: scanlines c tm false (v_back tm)
                        ++ scanlines c tm true y)).
Proof.
  intros Hc Hwf Hb Hvb Hy.
  destruct (construct_inv c s0 Hc) as (_ & HW & HH & _ & HD).
  pose proof (line_entry c tm s0 s y Hc Hwf ltac:(lia)) as E.
  assert (Hsplit : exists pre ve,
            vsync_in :: scanlines c tm false (v_back tm)
              ++ scanlines c tm true y =
            pre ++ repeat (hblank_in ve) (h_back tm)).
  { destruct y as [| y'].
    - destruct (v_back tm) as [| vb] eqn:Evb; [lia |].
      exists (vsync_in :: scanlines c tm false vb
                ++ scanline_head c tm false ++ [hsync_in false]), false.
      change (scanlines c tm true 0) with (@nil Inputs).
      rewrite app_nil_r, scanlines_back_porch.
      cbn [app]. now rewrite <- !app_assoc.
    - exists (vsync_in :: scanlines c tm false (v_back tm)
                ++ scanlines c tm true y'
                ++ scanline_head c tm true ++ [hsync_in true]), true.
      rewrite scanlines_back_porch. cbn [app]. now rewrite <- !app_assoc. }
  destruct Hsplit as (pre & ve & Hsplit).
  rewrite Hsplit in E |- *. rewrite run_app in E |- *.
  rewrite scan_run_idle in E by (apply Forall_repeat, idle_hblank).
  apply scan_tuple in E. destruct E as (_ & _ & E3 & _).
  apply hblank_settles; [| exact Hb].
  rewrite E3. apply Z.mod_pos_bound. lia.
Qed.

(** X8 - the picture.  In a normal frame of a well-formed configuration
    with glyphs at least 4 pixels wide, a back porch of at least 3 ticks and
    at least one blanked scanline after the vertical sync: when pixel [x] of
    active scanline [y] is due, bit 0 of the shift register is bit
    [x mod font_width], counted from the left, of row [y mod font_height] of
    the glyph of the character stored for cell
    [(y / font_height) * cells_per_row + x / font_width]; the attribute
    register holds that cell's attribute and the underline flag tells
    whether this is the last row of the glyph.  The pixel put out is the
    compositor's function of exactly these. *)
Theorem pixel_rendering
    (c : Config) (tm : Timing) (s0 s : State) (y x : nat) :
  construct c = inr s0 -> well_formed c -> 4 <= font_width c ->
  (3 <= h_back tm)%nat -> (1 <= v_back tm)%nat ->
  Z.of_nat y < v_active c -> Z.of_nat x < h_active c ->
  Z.testbit (font_shreg (run c s (frame_upto c tm y x))) 0 =
    Z.testbit
      (glyph_row c
         (char_at c (Z.of_nat y / font_height c * cells_per_row c
                     + Z.of_nat x / font_width c))
         (Z.of_nat y mod font_height c))
      (font_width c - 1 - Z.of_nat x mod font_width c) /\
  attr_reg (run c s (frame_upto c tm y x)) =
    attr_at c (Z.of_nat y / font_height c * cells_per_row c
               + Z.of_nat x / font_width c) /\
  undrl_reg (run c s (frame_upto c tm y x)) =
    (Z.of_nat y mod font_height c =? font_height c - 1) /\
  pix (run c s (frame_upto c tm y x)) =
    spec_pixel
      (Z.testbit
         (glyph_row c
            (char_at c (Z.of_nat y / font_height c * cells_per_row c
                        + Z.of_nat x / font_width c))
            (Z.of_nat y mod font_height c))
         (font_width c - 1 - Z.of_nat x mod font_width c))
      (Z.of_nat y mod font_height c =? font_height c - 1)
      (blink_reg (run c s (frame_upto c tm y x)))
      (decode_attr
         (attr_at c (Z.of_nat y / font_height c * cells_per_row c
                     + Z.of_nat x / font_width c))).
Proof.
  intros Hc Hwf HW4 Hb Hvb Hy Hx.
  destruct (construct_inv c s0 Hc) as (_ & HW & HH & _ & HD).
  destruct (row_base_fits c s0 y Hc Hwf Hy) as (R0 & R1 & HM & Hn).
  pose proof (h_active_cells c HW Hwf) as Hact.
  pose proof (line_entry c tm s0 s y Hc Hwf ltac:(lia)) as E.
  rewrite (Z.mod_small (Z.of_nat y / font_height c * cells_per_row c)) in E
    by lia.
  pose proof (line_entry_settled c tm s0 s y Hc Hwf Hb Hvb Hy) as St.
  pose proof (Z.mod_pos_bound (Z.of_nat y) (font_height c) ltac:(lia)) as Bv.
  pose proof (Z.mod_pos_bound (Z.of_nat x) (font_width c) ltac:(lia)) as Bx.
  pose proof (pipe_run c HW4 _ _ _ x Bv
                (pipe_start c HW4 _ _ _ _ St E ltac:(lia))) as P.
  rewrite <- run_frame_upto in P.
  destruct P as (_ & _ & _ & _ & _ & _ & P7 & P8 & P9).
  assert (Hcell : 0 <= Z.of_nat x / font_width c < cells_per_row c).
  { split; [apply Z.div_pos; lia |].
    apply Z.div_lt_upper_bound; [lia | nia]. }
  rewrite (Z.mod_small (Z.of_nat y / font_height c * cells_per_row c
                        + Z.of_nat x / font_width c)) in P7, P8 by lia.
  assert (Ebit :
    Z.testbit (font_shreg (run c s (frame_upto c tm y x))) 0 =
    Z.testbit
      (glyph_row c
         (char_at c (Z.of_nat y / font_height c * cells_per_row c
                     + Z.of_nat x / font_width c))
         (Z.of_nat y mod font_height c))
      (font_width c - 1 - Z.of_nat x mod font_width c)).
  { rewrite P7, Z.shiftr_spec, Z.add_0_l by lia.
    now rewrite bit_reverse_spec by lia. }
  split; [exact Ebit |]. split; [exact P8 |]. split; [exact P9 |].
  unfold pix, pix_fg, spec_pixel, spec_foreground_active, decode_attr.
  cbn [color_bit_0 color_bit_1 color_bit_2 underline blink].
  now rewrite Ebit, P8, P9.
Qed.

Lemma pixel_rendering_witness :
  Z.testbit (font_shreg (run cfg_demo st_busy (frame_upto cfg_demo tm_demo 3 5))) 0
    = Z.testbit (glyph_row cfg_demo (char_at cfg_demo (3 / 2 * 2 + 5 / 4)) (3 mod 2))
                (4 - 1 - 5 mod 4) /\
  attr_reg (run cfg_demo st_busy (frame_upto cfg_demo tm_demo 3 5))
    = attr_at cfg_demo (3 / 2 * 2 + 5 / 4).
Proof.
  destruct (pixel_rendering cfg_demo tm_demo reset_state st_busy 3 5)
    as (A & B & _).
  - reflexivity.
  - unfold well_formed. simpl. repeat split; lia.
  - simpl. lia.
  - simpl. lia.
  - simpl. lia.
  - simpl. lia.
  - simpl. lia.
  - exact (conj A B).
Defined.
